(** * UCall memory containers, connection ring and reply encoder

    A shallow embedding of [src/datastructures.hpp], [src/shared.hpp] and
    [src/helpers/reply.hpp], followed by the properties established about
    them.

    Conventions of the embedding:
    - [std::size_t] is an [N] below [2^64]; every addition, increment and
      decrement of the source is written with its wrap-around;
    - a heap block is a [list] of cells, indexed with stdpp's [!!] and
      updated with [<[i:=x]>]; an access outside the block, a [%] by zero
      and the like are undefined behaviour in C++ and make the embedded
      operation return [None];
    - the outcome of [std::malloc]/[std::realloc] is an input of the
      embedded operation: [None] is the null pointer, [Some raw] is a fresh
      block whose (indeterminate) contents are [raw];
    - a byte string is a [list ascii]. *)

From Stdlib Require Import NArith ZArith Lia Ascii String Sorted.
From stdpp Require Import base decidable option numbers list.

Local Open Scope N_scope.

(** ** [std::size_t] arithmetic *)

Definition size_modulus : N := 2 ^ 64.

Definition size_add (a b : N) : N := (a + b) mod size_modulus.
Definition size_incr (a : N) : N := (a + 1) mod size_modulus.
Definition size_decr (a : N) : N := (a + (size_modulus - 1)) mod size_modulus.

Infix "+s" := size_add (at level 50, left associativity).

(** ** Byte strings *)

Abbreviation bytes := (list ascii).

Definition bytes_of (s : string) : bytes := list_ascii_of_string s.

(** [std::string_view::size]. *)
Definition size (s : bytes) : N := N.of_nat (length s).

Definition dquote : ascii := ascii_of_nat 34.
Definition CR : ascii := ascii_of_nat 13.
Definition LF : ascii := ascii_of_nat 10.

(** A JSON string token: the text between two double quotes. *)
Definition quoted (s : string) : bytes := dquote :: bytes_of s ++ [dquote].

(** ** Reply encoder ([src/helpers/reply.hpp]) *)

(** [struct iovec]: [iov_base] is the memory readable from the base pointer
    on, [iov_len] the number of bytes of it that belong to the range. *)
Record iovec := mk_iovec { iov_base : bytes; iov_len : N }.

Definition iovec_bytes (v : iovec) : bytes := take (N.to_nat (iov_len v)) (iov_base v).

Definition iovecs_for_content_k : nat := 5.
Definition iovecs_for_error_k : nat := 7.

(** The raw literal opening every envelope: brace, jsonrpc member, id key. *)
Definition response_protocol_prefix_k : bytes :=
  bytes_of "{" ++ quoted "jsonrpc" ++ bytes_of ":" ++ quoted "2.0" ++ bytes_of ","
    ++ quoted "id" ++ bytes_of ":".

(** The raw literal separating the id from the result. *)
Definition result_separator : bytes := bytes_of "," ++ quoted "result" ++ bytes_of ":".

(** The raw literal closing a success envelope, with its optional comma. *)
Definition content_protocol_suffix : bytes := bytes_of "},".

(** The raw literal separating the id from the error code. *)
Definition error_code_separator : bytes :=
  bytes_of "," ++ quoted "error" ++ bytes_of ":{" ++ quoted "code" ++ bytes_of ":".

(** The raw literal separating the error code from the message. *)
Definition error_message_separator : bytes :=
  bytes_of "," ++ quoted "message" ++ bytes_of ":" ++ [dquote].

(** The raw literal closing an error envelope, with its optional comma. *)
Definition error_protocol_suffix : bytes := dquote :: bytes_of "}},".

(** [buffers[i].iov_len], read back from the caller's array. *)
Definition iov_len_at (buffers : list iovec) (i : nat) : N :=
  from_option iov_len 0 (buffers !! i).

(** [fill_with_content]: the caller's array must hold at least five
    entries, otherwise the stores run past its end. *)
Definition fill_with_content (buffers : list iovec) (request_id body : bytes)
    (append_comma : bool) : option (list iovec * N) :=
  if decide (iovecs_for_content_k ≤ length buffers)%nat then
    let buffers := <[0%nat := mk_iovec response_protocol_prefix_k 22]> buffers in
    let buffers := <[1%nat := mk_iovec request_id (size request_id)]> buffers in
    let buffers := <[2%nat := mk_iovec result_separator 10]> buffers in
    let buffers := <[3%nat := mk_iovec body (size body)]> buffers in
    let buffers := <[4%nat := mk_iovec content_protocol_suffix (1 + N.b2n append_comma)]> buffers in
    Some (buffers,
          iov_len_at buffers 0 +s iov_len_at buffers 1 +s iov_len_at buffers 2
            +s iov_len_at buffers 3 +s iov_len_at buffers 4)
  else None.

(** [fill_with_error]: seven entries; the returned total is the
    hard-coded sum of the source. *)
Definition fill_with_error (buffers : list iovec) (request_id error_code error_message : bytes)
    (append_comma : bool) : option (list iovec * N) :=
  if decide (iovecs_for_error_k ≤ length buffers)%nat then
    let buffers := <[0%nat := mk_iovec response_protocol_prefix_k 22]> buffers in
    let buffers := <[1%nat := mk_iovec request_id (size request_id)]> buffers in
    let buffers := <[2%nat := mk_iovec error_code_separator 17]> buffers in
    let buffers := <[3%nat := mk_iovec error_code (size error_code)]> buffers in
    let buffers := <[4%nat := mk_iovec error_message_separator 12]> buffers in
    let buffers := <[5%nat := mk_iovec error_message (size error_message)]> buffers in
    let buffers := <[6%nat := mk_iovec error_protocol_suffix (3 + N.b2n append_comma)]> buffers in
    Some (buffers,
          22 +s size request_id +s 17 +s size error_code +s 12 +s size error_message
            +s 3 +s N.b2n append_comma)
  else None.

(** [iovecs_length<iovecs_len_ak>]: the loop over [i = 0 .. iovecs_len_ak-1]. *)
Definition iovecs_length (iovecs_len_ak : nat) (iovecs : list iovec) : N :=
  foldl (fun added_length i => added_length +s iov_len_at iovecs i) 0 (seq 0 iovecs_len_ak).

(** [iovecs_memcpy<iovecs_len_ak>]: the bytes stored at [output], in order. *)
Definition iovecs_memcpy (iovecs_len_ak : nat) (iovecs : list iovec) : bytes :=
  foldl (fun output i => output ++ from_option iovec_bytes [] (iovecs !! i)) []
        (seq 0 iovecs_len_ak).

(** *** The HTTP header and [std::to_chars] *)

(** [http_header_k]: status line, a Content-Length line whose value is ten
    blanks, the Content-Type line and the empty line. *)
Definition http_header_k : bytes :=
  bytes_of "HTTP/1.1 200 OK" ++ [CR; LF]
    ++ bytes_of "Content-Length:          " ++ [CR; LF]
    ++ bytes_of "Content-Type: application/json" ++ [CR; LF; CR; LF].

Definition http_header_size_k : nat := 78.
Definition http_header_length_offset_k : nat := 33.
Definition http_header_length_capacity_k : nat := 9.

Definition digit_char (d : N) : ascii := ascii_of_N (48 + d).

(** The digits of [value], least significant first, pushed in front of
    [acc]; [fuel] bounds the number of further digits. *)
Fixpoint to_digits (fuel : nat) (value : N) (acc : bytes) : bytes :=
  let acc := digit_char (value mod 10) :: acc in
  match fuel with
  | O => acc
  | S fuel => if value / 10 =? 0 then acc else to_digits fuel (value / 10) acc
  end.

(** The decimal text of a [std::size_t]: at most twenty digits. *)
Definition decimal (value : N) : bytes := to_digits 19 value [].

(** The number a digit string denotes. *)
Definition digit_value (c : ascii) : N := N_of_ascii c - 48.
Definition is_digit (c : ascii) : Prop := 48 <= N_of_ascii c <= 57.
Definition from_digits (s : bytes) : N := foldl (fun acc c => 10 * acc + digit_value c) 0 s.

#[global] Instance is_digit_dec c : Decision (is_digit c).
Proof. unfold is_digit. apply _. Defined.

(** The digits a reader of the header takes for the Content-Length value:
    the longest run of digits at the front of the field. *)
Fixpoint digits_prefix (s : bytes) : bytes :=
  match s with
  | c :: s => if decide (is_digit c) then c :: digits_prefix s else []
  | [] => []
  end.

(** The value read back from a header: the decimal number at the offset of
    the reserved field. *)
Definition read_http_content_length (headers : bytes) : N :=
  from_digits (digits_prefix (drop http_header_length_offset_k headers)).

Inductive errc := errc_none | value_too_large.

#[global] Instance errc_eq_dec : EqDecision errc.
Proof. solve_decision. Defined.

(** [std::to_chars (first, last, value)] on the buffer [buf], with [first]
    and [last] as offsets into it: the digits are stored from [first] on
    when they fit into [last - first] characters; otherwise the call reports
    [value_too_large] (the implementations compare the lengths first and
    store nothing).  [[first, last)] must be a range of the buffer. *)
Definition to_chars (buf : bytes) (first last : nat) (value : N) : option (errc * bytes) :=
  if decide (first ≤ last ≤ length buf)%nat then
    let digits := decimal value in
    if decide (length digits ≤ last - first)%nat
    then Some (errc_none, list_inserts first digits buf)
    else Some (value_too_large, buf)
  else None.

(** [set_http_content_length]. *)
Definition set_http_content_length (headers : bytes) (content_len : N) : option (bool * bytes) :=
  res ← to_chars headers http_header_length_offset_k
          (http_header_length_offset_k + http_header_length_capacity_k) content_len;
  if decide (res.1 ≠ errc_none) then Some (false, res.2) else Some (true, res.2).

(** ** The allocator *)

(** The outcome of an allocation request is an input of the model:
    [None] when the allocator returns the null pointer, [Some fresh] when it
    returns a block whose [i]-th new cell holds the indeterminate value
    [fresh i]. *)
Definition malloc {T} (n : N) (outcome : option (nat → T)) : option (list T) :=
  (fun fresh => fresh <$> seq 0 (N.to_nat n)) <$> outcome.

(** [std::realloc]: the cells of the old block are kept (up to the new
    size), the cells beyond them are fresh. *)
Definition realloc {T} (old : list T) (n : N) (outcome : option (nat → T)) : option (list T) :=
  (fun fresh => take (N.to_nat n) old
                ++ (fresh <$> seq (length old) (N.to_nat n - length old))) <$> outcome.

(** [std::uninitialized_default_construct (p + first, p + last)]:
    [default_construct] is what default-initialisation makes of a cell (the
    identity for a trivial type, a constant for a class that sets its
    members). *)
Definition uninitialized_default_construct {T} (default_construct : T → T)
    (block : list T) (first last : nat) : list T :=
  take first block ++ (default_construct <$> take (last - first) (drop first block))
    ++ drop last block.

(** ** [buffer_gt] *)

Module buffer_gt.
Section buffer.
Context {T : Type} (default_construct : T → T).

Record t := mk { elements_ : option (list T); capacity_ : N }.

(** The default-constructed buffer. *)
Definition empty : t := mk None 0.

(** [resize]: the pointer member is overwritten by the allocator's answer
    before the answer is tested. *)
Definition resize (b : t) (n : N) (outcome : option (nat → T)) : bool * t :=
  let b := mk (malloc n outcome) (capacity_ b) in
  match elements_ b with
  | None => (false, b)
  | Some block =>
      (true, mk (Some (uninitialized_default_construct default_construct block 0 (N.to_nat n))) n)
  end.

Definition data (b : t) : option (list T) := elements_ b.
Definition size (b : t) : N := capacity_ b.
Definition capacity (b : t) : N := capacity_ b.
End buffer.
Arguments t : clear implicits.
End buffer_gt.

(** ** [array_gt] *)

Module array_gt.
Section array.
Context {T : Type} (default_construct : T → T).

Record t := mk { elements_ : option (list T); count_ : N; capacity_ : N }.

(** The default-constructed array. *)
Definition empty : t := mk None 0 0.

Definition size (a : t) : N := count_ a.
Definition capacity (a : t) : N := capacity_ a.
Definition data (a : t) : option (list T) := elements_ a.

(** [reserve]. *)
Definition reserve (a : t) (n : N) (outcome : option (nat → T)) : bool * t :=
  if n <=? capacity_ a then (true, a)
  else
    let grown :=
      match elements_ a with
      | None => malloc n outcome
      | Some old => realloc old n outcome
      end in
    match grown with
    | None => (false, a)
    | Some ptr =>
        (true, mk (Some (uninitialized_default_construct default_construct ptr
                           (N.to_nat (capacity_ a)) (N.to_nat n)))
                  (count_ a) n)
    end.

(** [reset]. *)
Definition reset (a : t) : t := mk None 0 0.

(** [push_back_reserved]: the store at [elements_ + count_] is undefined
    outside the block. *)
Definition push_back_reserved (a : t) (element : T) : option t :=
  block ← elements_ a;
  if decide (N.to_nat (count_ a) < length block)%nat
  then Some (mk (Some (<[N.to_nat (count_ a) := element]> block))
                (size_incr (count_ a)) (capacity_ a))
  else None.

(** [pop_back]. *)
Definition pop_back (a : t) (n : N) : t :=
  mk (elements_ a) ((count_ a + (size_modulus - n mod size_modulus)) mod size_modulus)
     (capacity_ a).

(** [append_n]: [elements] is the memory readable at the source pointer;
    the copy of [n] cells to [end ()] is undefined when it leaves either
    block. *)
Definition append_n (a : t) (elements : list T) (n : N) (outcome : option (nat → T))
    : option (bool * t) :=
  let '(ok, a) := reserve a (size a +s n) outcome in
  if ok then
    match elements_ a with
    | None => if n =? 0 then Some (true, mk None (count_ a +s n) (capacity_ a)) else None
    | Some block =>
        if decide (N.to_nat n ≤ length elements
                   ∧ N.to_nat (count_ a) + N.to_nat n ≤ length block)%nat
        then Some (true, mk (Some (list_inserts (N.to_nat (count_ a))
                                     (take (N.to_nat n) elements) block))
                            (count_ a +s n) (capacity_ a))
        else None
    end
  else Some (false, a).

(** The cells of the block (none behind the null pointer). *)
Definition block (a : t) : list T := default [] (elements_ a).

(** The elements appended so far: the cells [[0, count_)]. *)
Definition contents (a : t) : list T := take (N.to_nat (count_ a)) (block a).

(** The states the operations keep the array in: the block has
    [capacity_] cells (no block, no capacity) and holds the [count_]
    elements. *)
Definition wf (a : t) : Prop :=
  length (block a) = N.to_nat (capacity_ a)
  ∧ count_ a ≤ capacity_ a
  ∧ capacity_ a < size_modulus.

(** A sequence of [reserve] calls, each with the size asked for and the
    allocator's answer: the result of every call, in order. *)
Fixpoint reserve_all (a : t) (requests : list (N * option (nat → T))) : list (bool * t) :=
  match requests with
  | [] => []
  | (n, outcome) :: requests =>
      let result := reserve a n outcome in
      result :: reserve_all (snd result) requests
  end.

(** *** Runs of an array *)

Inductive op :=
| Reserve (n : N) (outcome : option (nat → T))
| PushBackReserved (element : T)
| PopBack (n : N)
| AppendN (elements : list T) (n : N) (outcome : option (nat → T))
| Reset.

(** One call.  Sizes are [std::size_t] values; [pop_back] is called with
    at most [size ()] elements to remove, which the source leaves to the
    caller. *)
Definition step (a : t) (o : op) : option t :=
  match o with
  | Reserve n outcome =>
      if decide (n < size_modulus) then Some (snd (reserve a n outcome)) else None
  | PushBackReserved element => push_back_reserved a element
  | PopBack n => if decide (n ≤ size a) then Some (pop_back a n) else None
  | AppendN elements n outcome =>
      if decide (n < size_modulus) then snd <$> append_n a elements n outcome else None
  | Reset => Some (reset a)
  end.

Fixpoint run (a : t) (ops : list op) : option t :=
  match ops with
  | [] => Some a
  | o :: ops => a ← step a o; run a ops
  end.
End array.
Arguments t : clear implicits.
End array_gt.

(** ** [pool_gt] *)

(** A pointer into the element block of a pool: null, or the element at an
    offset from [elements_]. *)
Inductive pointer := nullptr | element_ptr (offset : N).

#[global] Instance pointer_eq_dec : EqDecision pointer.
Proof. solve_decision. Defined.

Module pool_gt.
Section pool.
Context {T : Type} (default_construct : T → T).

(** [free_offsets_] points into the same allocation, behind the elements;
    it is modelled by the cells it points to (none before [reserve]). *)
Record t := mk {
  capacity_ : N;
  free_count_ : N;
  elements_ : option (list T);
  free_offsets_ : list N
}.

(** The default-constructed pool. *)
Definition empty : t := mk 0 0 None [].

(** [std::iota (free_offsets_, free_offsets_ + n, 0)]. *)
Definition iota (n : N) : list N := N.of_nat <$> seq 0 (N.to_nat n).

(** [reserve]. *)
Definition reserve (p : t) (n : N) (outcome : option (nat → T)) : bool * t :=
  match malloc n outcome with
  | None => (false, p)
  | Some mem =>
      (true, mk n n (Some (uninitialized_default_construct default_construct mem 0 (N.to_nat n)))
                (iota n))
  end.

(** [alloc]: the read of [free_offsets_[--free_count_]] is undefined
    outside the offsets block. *)
Definition alloc (p : t) : option (pointer * t) :=
  if free_count_ p =? 0 then Some (nullptr, p)
  else
    let free_count := size_decr (free_count_ p) in
    offset ← free_offsets_ p !! N.to_nat free_count;
    Some (element_ptr offset, mk (capacity_ p) free_count (elements_ p) (free_offsets_ p)).

(** [release]: [released] is the offset of the released element from
    [elements_]; the store at [free_offsets_[free_count_++]] is undefined
    outside the offsets block. *)
Definition release (p : t) (released : N) : option t :=
  if decide (N.to_nat (free_count_ p) < length (free_offsets_ p))%nat
  then Some (mk (capacity_ p) (size_incr (free_count_ p)) (elements_ p)
                (<[N.to_nat (free_count_ p) := released]> (free_offsets_ p)))
  else None.

Definition offset_of (element : N) : N := element.
Definition at_offset (p : t) (i : N) : option T := elements_ p ≫= (.!! N.to_nat i).

(** The states the operations keep the pool in: the offsets block has
    [capacity_] cells, of which the first [free_count_] are the stack of
    free offsets. *)
Definition wf (p : t) : Prop :=
  length (free_offsets_ p) = N.to_nat (capacity_ p)
  ∧ free_count_ p ≤ capacity_ p
  ∧ capacity_ p < size_modulus.

(** The stack of free offsets: the first [free_count_] cells of the
    offsets block, the top last. *)
Definition free_stack (p : t) : list N := take (N.to_nat (free_count_ p)) (free_offsets_ p).

(** Along a run, the free elements and the outstanding ones add up to
    the capacity. *)
Definition balanced (p : t) (outstanding : list N) : Prop :=
  wf p ∧ free_count_ p + N.of_nat (length outstanding) = capacity_ p.

(** The free stack and the outstanding elements are, together, the
    offsets [0 .. n-1], each once. *)
Definition conserved (n : N) (p : t) (outstanding : list N) : Prop :=
  wf p ∧ capacity_ p = n ∧ free_stack p ++ outstanding ≡ₚ iota n.

(** [k] consecutive calls of [alloc]: the pointers returned, in order. *)
Fixpoint allocs (k : nat) (p : t) : option (list pointer * t) :=
  match k with
  | O => Some ([], p)
  | S k => '(ptr, p) ← alloc p; '(ptrs, p) ← allocs k p; Some (ptr :: ptrs, p)
  end.

(** *** Runs of a pool *)

Inductive op := Alloc | Release (released : N).

Fixpoint remove_first (x : N) (l : list N) : list N :=
  match l with
  | [] => []
  | y :: l => if decide (x = y) then l else y :: remove_first x l
  end.

(** A history of calls together with the elements that are allocated and
    not yet released; the caller releases only such elements. *)
Fixpoint run (p : t) (outstanding : list N) (ops : list op) : option (t * list N) :=
  match ops with
  | [] => Some (p, outstanding)
  | Alloc :: ops =>
      '(ptr, p) ← alloc p;
      match ptr with
      | nullptr => run p outstanding ops
      | element_ptr offset => run p (offset :: outstanding) ops
      end
  | Release released :: ops =>
      if decide (released ∈ outstanding)
      then p ← release p released; run p (remove_first released outstanding) ops
      else None
  end.
End pool.
Arguments t : clear implicits.
End pool_gt.

(** ** Connections ([src/shared.hpp]) *)

(** [descriptor_t] is an [int]; [bad_descriptor_k] marks a slot without
    connection. *)
Definition descriptor_t := Z.
Definition bad_descriptor_k : descriptor_t := (-1)%Z.

(** The members of the ring's element type that the ring itself touches. *)
Record response_t := mk_response { copies_count : N; iovecs_count : N }.
Record connection_t := mk_connection {
  descriptor : descriptor_t;
  skipped_cycles : N;
  response : response_t
}.

(** [std::strlen]: the number of bytes before the first NUL of the memory
    at the pointer; running off the memory without meeting one is
    undefined. *)
Fixpoint strlen (mem : bytes) : option N :=
  match mem with
  | [] => None
  | c :: mem => if Ascii.eqb c zero then Some 0 else N.succ <$> strlen mem
  end.

(** [string_length]: [c_str] is the memory at the pointer, or [None] for
    the null pointer. *)
Definition string_length (c_str : option bytes) (optional_length : N) : option N :=
  match c_str with
  | Some mem => if optional_length =? 0 then strlen mem else Some optional_length
  | None => Some optional_length
  end.

(** [cpu_cycle], x86 branch: [low] and [high] are the two 32-bit halves the
    counter instruction delivers; the result is a [timestamp_t] (64 bits). *)
Definition cpu_cycle (low high : N) : N :=
  N.lor (N.shiftl high 32 mod 2 ^ 64) low.

(** ** [round_robin_gt] *)

Module round_robin_gt.

Record t := mk {
  circle_ : option (list connection_t);
  count_ : N;
  capacity_ : N;
  idx_newest_ : N;
  idx_oldest_ : N;
  idx_to_poll_ : N
}.

(** The default-constructed ring. *)
Definition empty : t := mk None 0 0 0 0 0.

Definition size (r : t) : N := count_ r.
Definition capacity (r : t) : N := capacity_ r.

(** [circle_[i]]. *)
Definition slot (r : t) (i : N) : option connection_t := circle_ r ≫= (.!! N.to_nat i).

(** [a % b] of the source: undefined for [b = 0]. *)
Definition umod (a b : N) : option N := if b =? 0 then None else Some (a mod b).

(** [alloc]. *)
Definition alloc (r : t) (n : N) (outcome : option (nat → connection_t)) : bool * t :=
  match malloc n outcome with
  | None => (false, r)
  | Some cons_ => (true, mk (Some cons_) (count_ r) n (idx_newest_ r) (idx_oldest_ r) (idx_to_poll_ r))
  end.

(** [drop_tail]. *)
Definition drop_tail (r : t) : option (descriptor_t * t) :=
  circle ← circle_ r;
  oldest ← circle !! N.to_nat (idx_oldest_ r);
  let old := descriptor oldest in
  let circle := <[N.to_nat (idx_oldest_ r) :=
                    mk_connection bad_descriptor_k (skipped_cycles oldest) (response oldest)]> circle in
  idx_to_poll ← (if idx_to_poll_ r =? idx_oldest_ r
                 then umod (size_incr (idx_to_poll_ r)) (capacity_ r)
                 else Some (idx_to_poll_ r));
  idx_oldest ← umod (size_incr (idx_oldest_ r)) (capacity_ r);
  Some (old, mk (Some circle) (size_decr (count_ r)) (capacity_ r) (idx_newest_ r)
                idx_oldest idx_to_poll).

(** [push_ahead]. *)
Definition push_ahead (r : t) (new_ : descriptor_t) : option t :=
  circle ← circle_ r;
  if decide (N.to_nat (idx_newest_ r) < length circle)%nat then
    let circle := <[N.to_nat (idx_newest_ r) := mk_connection new_ 0 (mk_response 0 0)]> circle in
    idx_newest ← umod (size_incr (idx_newest_ r)) (capacity_ r);
    Some (mk (Some circle) (size_incr (count_ r)) (capacity_ r) idx_newest
             (idx_oldest_ r) (idx_to_poll_ r))
  else None.

(** [poll]: the result is the slot that the returned reference
    designates, [circle_[idx_to_poll_]] read after the cursor has moved;
    [connection_ptr], taken before the move, is not used by the source. *)
Definition poll (r : t) : option (N * t) :=
  circle ← circle_ r;
  idx_to_poll_following ← umod (size_incr (idx_to_poll_ r)) (count_ r);
  let idx_to_poll := if idx_to_poll_following =? idx_newest_ r
                     then idx_oldest_ r else idx_to_poll_following in
  if decide (N.to_nat idx_to_poll < length circle)%nat
  then Some (idx_to_poll, mk (Some circle) (count_ r) (capacity_ r) (idx_newest_ r)
                             (idx_oldest_ r) idx_to_poll)
  else None.

(** [tail]. *)
Definition tail (r : t) : option connection_t := slot r (idx_oldest_ r).

(** *** Runs of the ring *)

Inductive op := PushAhead (new_ : descriptor_t) | DropTail | Poll.

(** One call, made only when the caller's obligation holds:
    [size () < capacity ()] before [push_ahead], [size () > 0] before
    [drop_tail] and [poll]. *)
Definition step (r : t) (o : op) : option t :=
  match o with
  | PushAhead new_ => if decide (size r < capacity r) then push_ahead r new_ else None
  | DropTail => if decide (0 < size r) then snd <$> drop_tail r else None
  | Poll => if decide (0 < size r) then snd <$> poll r else None
  end.

Fixpoint run (r : t) (ops : list op) : option t :=
  match ops with
  | [] => Some r
  | o :: ops => r ← step r o; run r ops
  end.

(** [k] consecutive calls of [poll]: the slots returned, in order. *)
Fixpoint polls (k : nat) (r : t) : option (list N * t) :=
  match k with
  | O => Some ([], r)
  | S k => '(i, r) ← poll r; '(rest, r) ← polls k r; Some (i :: rest, r)
  end.

(** The live slots, oldest first: the insertion order. *)
Definition live_slots (r : t) : list N :=
  (fun i => (idx_oldest_ r + N.of_nat i) mod capacity_ r) <$> seq 0 (N.to_nat (count_ r)).

(** The round-robin order the specification asks of a cycle of polls: the
    live slots in insertion order, starting from the slot under the
    cursor and wrapping from the newest to the oldest. *)
Definition cycle_from_cursor (r : t) : list N :=
  let live := live_slots r in
  let start := from_option fst 0%nat (list_find (fun i => i = idx_to_poll_ r) live) in
  drop start live ++ take start live.

(** [head]: the index is [idx_newest_ - 1] in [std::size_t]. *)
Definition head (r : t) : option connection_t := slot r (size_decr (idx_newest_ r)).

(** The descriptors in the live slots, oldest first. *)
Definition live_descriptors (r : t) : list (option descriptor_t) :=
  (fun i => descriptor <$> slot r i) <$> live_slots r.

(** A first-in first-out queue of descriptors driven by the calls of a
    run. *)
Fixpoint queue_run (queue : list descriptor_t) (ops : list op) : list descriptor_t :=
  match ops with
  | [] => queue
  | PushAhead new_ :: ops => queue_run (queue ++ [new_]) ops
  | DropTail :: ops => queue_run (List.tail queue) ops
  | Poll :: ops => queue_run queue ops
  end.

(** The ring as its first [alloc] leaves it. *)
Definition allocated (n : N) (fresh : nat → connection_t) : t :=
  snd (alloc empty n (Some fresh)).

(** What holds of the members in every run: the block has [capacity_]
    slots, the count and the three indices are in range, and the newest
    index is [count_] slots ahead of the oldest. *)
Definition wf (r : t) : Prop :=
  ∃ circle,
    circle_ r = Some circle
    ∧ length circle = N.to_nat (capacity_ r)
    ∧ 0 < capacity_ r < size_modulus
    ∧ count_ r ≤ capacity_ r
    ∧ idx_oldest_ r < capacity_ r
    ∧ idx_newest_ r < capacity_ r
    ∧ idx_to_poll_ r < capacity_ r
    ∧ idx_newest_ r = (idx_oldest_ r + count_ r) mod capacity_ r.
End round_robin_gt.

(** ** Reference texts and inputs of the statements below *)

(** The text of the success envelope for id 7 and result 19, written out. *)
Definition success_envelope_7_19 : bytes :=
  bytes_of "{" ++ quoted "jsonrpc" ++ bytes_of ":" ++ quoted "2.0" ++ bytes_of ","
    ++ quoted "id" ++ bytes_of ":7," ++ quoted "result" ++ bytes_of ":19}".

(** The text of the error envelope for id 1, code -32601 and the message
    Method not found, written out. *)
Definition error_envelope_method_not_found : bytes :=
  bytes_of "{" ++ quoted "jsonrpc" ++ bytes_of ":" ++ quoted "2.0" ++ bytes_of ","
    ++ quoted "id" ++ bytes_of ":1," ++ quoted "error" ++ bytes_of ":{" ++ quoted "code"
    ++ bytes_of ":-32601," ++ quoted "message" ++ bytes_of ":" ++ quoted "Method not found"
    ++ bytes_of "}}".

(** A caller's array of [n] entries that were never written. *)
Definition blank_iovecs (n : nat) : list iovec := replicate n (mk_iovec [] 0).

(** An array of capacity 2 that holds the one element 7. *)
Definition array_with_7 : array_gt.t N := array_gt.mk (Some [7; 0]) 1 2.

(** A ring of two slots, both live, whose newest index has wrapped to 0. *)
Definition full_ring : round_robin_gt.t :=
  round_robin_gt.mk
    (Some [mk_connection 5%Z 1 (mk_response 2 3); mk_connection 6%Z 0 (mk_response 0 0)])
    2 2 0 0 0.

(** Fresh memory that reads as zeros, for the runs evaluated below. *)
Definition zero_cells : nat → N := fun _ => 0.
Definition zero_connections : nat → connection_t :=
  fun _ => mk_connection 0%Z 0 (mk_response 0 0).

(** * Properties *)

(** ** [std::size_t] arithmetic *)

Lemma size_add_mod_l a b : (a mod size_modulus) +s b = a +s b.
Proof. unfold size_add. by rewrite N.Div0.add_mod_idemp_l. Qed.

Lemma size_add_0_l a : 0 +s a = a mod size_modulus.
Proof. reflexivity. Qed.

Lemma size_add_small a b : a + b < size_modulus → a +s b = a + b.
Proof. intros. unfold size_add. by apply N.mod_small. Qed.

Lemma size_incr_small a : a + 1 < size_modulus → size_incr a = a + 1.
Proof. intros. unfold size_incr. by apply N.mod_small. Qed.

Lemma size_decr_pos a : 0 < a < size_modulus → size_decr a = a - 1.
Proof.
  intros [Hpos Hlt]. unfold size_decr.
  replace (a + (size_modulus - 1)) with ((a - 1) + 1 * size_modulus) by lia.
  rewrite N.Div0.mod_add. apply N.mod_small. lia.
Qed.

Lemma size_decr_incr a : a + 1 < size_modulus → size_decr (size_incr a) = a.
Proof.
  intros. rewrite size_incr_small by done. rewrite size_decr_pos by lia. lia.
Qed.

(** ** Reply encoder *)

(** C4 with the total the specification gives: the reported total for id 7
    and result 19 is not 38.  The envelope has 36 bytes and 36 is what is
    returned. *)
Lemma fill_with_content_total_is_not_38 :
  ¬ ∃ filled,
      fill_with_content (blank_iovecs 5) (bytes_of "7") (bytes_of "19") false = Some (filled, 38)
      ∧ iovecs_memcpy 5 filled = success_envelope_7_19.
Proof.
  intros (filled & Hfill & _). vm_compute in Hfill. congruence.
Qed.

(** C4, amended: for request id 7, result body 19 and no trailing comma,
    [fill_with_content] fills the first five entries of the caller's array
    with ranges whose concatenation is the success envelope, leaves the
    other entries alone, and returns the total length 36. *)
Theorem fill_with_content_7_19 (buffers : list iovec) :
  (5 ≤ length buffers)%nat →
  ∃ filled,
    fill_with_content buffers (bytes_of "7") (bytes_of "19") false = Some (filled, 36)
    ∧ iovecs_memcpy 5 filled = success_envelope_7_19
    ∧ size success_envelope_7_19 = 36
    ∧ drop 5 filled = drop 5 buffers.
Proof.
  intros Hlen.
  destruct buffers as [|b0 [|b1 [|b2 [|b3 [|b4 rest]]]]]; simpl in Hlen; try lia.
  unfold fill_with_content, iovecs_for_content_k. rewrite decide_True by (simpl; lia).
  eexists. split; [reflexivity|]. by vm_compute.
Qed.

Lemma fill_with_content_7_19_witness :
  ∃ filled,
    fill_with_content (blank_iovecs 5) (bytes_of "7") (bytes_of "19") false = Some (filled, 36)
    ∧ iovecs_memcpy 5 filled = success_envelope_7_19
    ∧ size success_envelope_7_19 = 36
    ∧ drop 5 filled = drop 5 (blank_iovecs 5).
Proof. apply (fill_with_content_7_19 (blank_iovecs 5)). simpl. lia. Defined.

(** C6: for id 1, error code -32601, the message Method not found and no
    trailing comma, [fill_with_error] fills the first seven entries of the
    caller's array with ranges whose concatenation is the error envelope,
    and returns the length of that concatenation (77 bytes). *)
Theorem fill_with_error_method_not_found (buffers : list iovec) :
  (7 ≤ length buffers)%nat →
  ∃ filled total,
    fill_with_error buffers (bytes_of "1") (bytes_of "-32601")
      (bytes_of "Method not found") false = Some (filled, total)
    ∧ iovecs_memcpy 7 filled = error_envelope_method_not_found
    ∧ total = size (iovecs_memcpy 7 filled)
    ∧ total = 77
    ∧ drop 7 filled = drop 7 buffers.
Proof.
  intros Hlen.
  destruct buffers as [|b0 [|b1 [|b2 [|b3 [|b4 [|b5 [|b6 rest]]]]]]]; simpl in Hlen; try lia.
  unfold fill_with_error, iovecs_for_error_k. rewrite decide_True by (simpl; lia).
  eexists _, _. split; [reflexivity|]. by vm_compute.
Qed.

Lemma fill_with_error_method_not_found_witness :
  ∃ filled total,
    fill_with_error (blank_iovecs 7) (bytes_of "1") (bytes_of "-32601")
      (bytes_of "Method not found") false = Some (filled, total)
    ∧ iovecs_memcpy 7 filled = error_envelope_method_not_found
    ∧ total = size (iovecs_memcpy 7 filled)
    ∧ total = 77
    ∧ drop 7 filled = drop 7 (blank_iovecs 7).
Proof. apply (fill_with_error_method_not_found (blank_iovecs 7)). simpl. lia. Defined.



(** ** The HTTP header patch *)

Lemma N_of_digit_char d : d < 10 → N_of_ascii (digit_char d) = 48 + d.
Proof. intros Hd. unfold digit_char. apply N_ascii_embedding. lia. Qed.

Lemma digit_char_value d : d < 10 → digit_value (digit_char d) = d.
Proof. intros Hd. unfold digit_value. rewrite N_of_digit_char by done. lia. Qed.

Lemma digit_char_is_digit d : d < 10 → is_digit (digit_char d).
Proof. intros Hd. unfold is_digit. rewrite N_of_digit_char by done. lia. Qed.

Lemma Forall_is_digit_single d : d < 10 → Forall is_digit [digit_char d].
Proof. intros Hd. apply Forall_cons_2; [by apply digit_char_is_digit|apply Forall_nil_2]. Qed.

Lemma to_digits_acc fuel value acc :
  to_digits fuel value acc = to_digits fuel value [] ++ acc.
Proof.
  revert value acc. induction fuel as [|fuel IH]; intros value acc; simpl; [done|].
  destruct (value / 10 =? 0); [done|].
  rewrite (IH _ (_ :: acc)), (IH _ [_]). by rewrite <- app_assoc.
Qed.

Lemma from_digits_snoc s c : from_digits (s ++ [c]) = 10 * from_digits s + digit_value c.
Proof. unfold from_digits. by rewrite foldl_app. Qed.

(** What [to_digits] produces when the fuel covers the digits of the value:
    the shortest digit string that denotes it. *)
Lemma to_digits_spec fuel value :
  value < 10 ^ N.of_nat (S fuel) →
  let digits := to_digits fuel value [] in
  from_digits digits = value
  ∧ Forall is_digit digits
  ∧ (1 ≤ length digits ≤ S fuel)%nat
  ∧ value < 10 ^ N.of_nat (length digits)
  ∧ (value ≠ 0 → 10 ^ (N.of_nat (length digits) - 1) ≤ value).
Proof.
  revert value. induction fuel as [|fuel IH]; intros value Hlt.
  - change (10 ^ N.of_nat 1) with 10 in Hlt. simpl.
    rewrite N.mod_small by done. split_and!.
    + unfold from_digits. simpl. rewrite digit_char_value by done. lia.
    + by apply Forall_is_digit_single.
    + done.
    + done.
    + by change (10 ^ N.of_nat 1) with 10.
    + intros. change (10 ^ (N.of_nat 1 - 1)) with 1. lia.
  - cbn zeta. simpl to_digits.
    assert (Hmod : value mod 10 < 10) by (apply N.mod_lt; lia).
    destruct (N.eqb_spec (value / 10) 0) as [Hq|Hq].
    + assert (value < 10) by (apply N.div_small_iff in Hq; lia).
      rewrite N.mod_small by done. split_and!.
      * unfold from_digits. simpl. rewrite digit_char_value by done. lia.
      * by apply Forall_is_digit_single.
      * simpl. lia.
      * simpl. lia.
      * by change (10 ^ N.of_nat 1) with 10.
      * intros. simpl length. change (10 ^ (N.of_nat 1 - 1)) with 1. lia.
    + rewrite to_digits_acc.
      assert (Hdiv : value / 10 < 10 ^ N.of_nat (S fuel)).
      { apply N.Div0.div_lt_upper_bound.
        rewrite <- N.pow_succ_r'. by rewrite <- Nat2N.inj_succ. }
      destruct (IH _ Hdiv) as (Hval & Hdig & Hlen & Hup & Hlow).
      set (digits := to_digits fuel (value / 10) []) in *.
      pose proof (N.div_mod value 10 ltac:(lia)) as Hdm.
      rewrite length_app. simpl length.
      replace (N.of_nat (length digits + 1)) with (N.succ (N.of_nat (length digits))) by lia.
      rewrite N.pow_succ_r'.
      replace (N.succ (N.of_nat (length digits)) - 1)
        with (N.succ (N.of_nat (length digits) - 1)) by lia.
      rewrite N.pow_succ_r'.
      split_and!.
      * rewrite from_digits_snoc, Hval, digit_char_value by done. lia.
      * apply Forall_app. split; [done|]. by apply Forall_is_digit_single.
      * lia.
      * lia.
      * lia.
      * intros _. specialize (Hlow Hq).
        set (p := 10 ^ (N.of_nat (length digits) - 1)) in *. clearbody p.
        set (q := value / 10) in *. set (m := value mod 10) in *.
        clearbody q m. clear -Hlow Hdm. lia.
Qed.

Lemma decimal_spec value :
  value < size_modulus →
  from_digits (decimal value) = value
  ∧ Forall is_digit (decimal value)
  ∧ (1 ≤ length (decimal value) ≤ 20)%nat
  ∧ value < 10 ^ N.of_nat (length (decimal value))
  ∧ (value ≠ 0 → 10 ^ (N.of_nat (length (decimal value)) - 1) ≤ value).
Proof.
  intros Hlt. apply (to_digits_spec 19).
  eapply N.lt_trans; [exact Hlt|]. by vm_compute.
Qed.

(** The digits fit into [width] characters exactly when the value is below
    [10 ^ width]. *)
Lemma decimal_fits value (width : nat) :
  value < size_modulus →
  (length (decimal value) ≤ width)%nat ↔ value < 10 ^ N.of_nat width ∧ (1 ≤ width)%nat.
Proof.
  intros Hlt. destruct (decimal_spec value Hlt) as (_ & _ & Hlen & Hup & Hlow).
  split.
  - intros Hfit. split; [|lia].
    eapply N.lt_le_trans; [exact Hup|]. apply N.pow_le_mono_r; lia.
  - intros [Hval Hw].
    destruct (decide (value = 0)) as [->|Hnz].
    { change (decimal 0) with [digit_char 0]. simpl. lia. }
    destruct (decide (length (decimal value) ≤ width)%nat) as [|Hbig]; [done|].
    specialize (Hlow Hnz).
    assert (10 ^ N.of_nat width ≤ 10 ^ (N.of_nat (length (decimal value)) - 1))
      by (apply N.pow_le_mono_r; lia).
    lia.
Qed.

(** The patch on any buffer that contains the reserved field. *)
Lemma set_http_content_length_fits (headers : bytes) (n : N) :
  (42 ≤ length headers)%nat → n < size_modulus → n < 10 ^ 9 →
  ∃ headers',
    set_http_content_length headers n = Some (true, headers')
    ∧ length headers' = length headers
    ∧ (length (decimal n) ≤ 9)%nat
    ∧ (∀ i, (i < length (decimal n))%nat → headers' !! (33 + i)%nat = decimal n !! i)
    ∧ (∀ i, (i < 33 ∨ 33 + length (decimal n) ≤ i)%nat → headers' !! i = headers !! i).
Proof.
  intros Hbuf Hsz Hn.
  assert (Hfit : (length (decimal n) ≤ 9)%nat) by (apply decimal_fits; [done|split; [done|lia]]).
  unfold set_http_content_length, to_chars,
    http_header_length_offset_k, http_header_length_capacity_k.
  rewrite decide_True by lia. cbn zeta.
  rewrite decide_True by lia.
  exists (list_inserts 33 (decimal n) headers). split; [reflexivity|]. split_and!.
  - apply length_inserts.
  - done.
  - intros i Hi. rewrite list_lookup_inserts by lia. f_equal. lia.
  - intros i [Hi|Hi].
    + by apply list_lookup_inserts_lt.
    + by apply list_lookup_inserts_ge.
Qed.

(** The value that does not fit: the call reports failure (and, in this
    model of [std::to_chars], stores nothing). *)
Lemma set_http_content_length_overflow (headers : bytes) (n : N) :
  (42 ≤ length headers)%nat → n < size_modulus → 10 ^ 9 ≤ n →
  set_http_content_length headers n = Some (false, headers).
Proof.
  intros Hbuf Hsz Hn.
  assert (Hfit : ¬ (length (decimal n) ≤ 9)%nat).
  { intros Hfit. apply decimal_fits in Hfit as [Hlt _]; [|done].
    change (10 ^ N.of_nat 9) with (10 ^ 9) in Hlt. lia. }
  unfold set_http_content_length, to_chars,
    http_header_length_offset_k, http_header_length_capacity_k.
  rewrite decide_True by lia. cbn zeta.
  rewrite decide_False by lia. done.
Qed.

(** C5: on the 78-byte header template, for every content length [n] (a
    [std::size_t]): when [n] has at most nine digits the call returns true,
    the header keeps its 78 bytes, the bytes from offset 33 on are the
    decimal digits of [n] (digits only, denoting [n], without leading
    zero), the rest of the reserved field keeps its blanks and every other
    byte is unchanged; when [n] needs ten digits or more the call returns
    false. *)
Theorem set_http_content_length_spec (n : N) :
  n < size_modulus →
  (n < 10 ^ 9 →
     ∃ headers,
       set_http_content_length http_header_k n = Some (true, headers)
       ∧ length headers = http_header_size_k
       ∧ (length (decimal n) ≤ http_header_length_capacity_k)%nat
       ∧ Forall is_digit (decimal n)
       ∧ from_digits (decimal n) = n
       ∧ (n ≠ 0 → 10 ^ (N.of_nat (length (decimal n)) - 1) ≤ n)
       ∧ (∀ i, (i < length (decimal n))%nat →
               headers !! (http_header_length_offset_k + i)%nat = decimal n !! i)
       ∧ (∀ i, (length (decimal n) ≤ i < http_header_length_capacity_k)%nat →
               headers !! (http_header_length_offset_k + i)%nat = Some " "%char)
       ∧ (∀ i, (i < http_header_length_offset_k
                ∨ http_header_length_offset_k + length (decimal n) ≤ i)%nat →
               headers !! i = http_header_k !! i))
  ∧ (10 ^ 9 ≤ n →
     fst <$> set_http_content_length http_header_k n = Some false).
Proof.
  intros Hsz. split.
  - intros Hn.
    destruct (set_http_content_length_fits http_header_k n) as (h & Hset & Hlen & Hfit & Hdig & Hrest);
      [vm_compute; lia|done|done|].
    destruct (decimal_spec n Hsz) as (Hval & Hall & _ & _ & Hlow).
    exists h. split_and!; try done.
    + intros i Hi. unfold http_header_length_offset_k, http_header_length_capacity_k in *.
      rewrite Hrest by lia.
      assert (Hcases : (i = 0 ∨ i = 1 ∨ i = 2 ∨ i = 3 ∨ i = 4 ∨ i = 5 ∨ i = 6 ∨ i = 7 ∨ i = 8)%nat)
        by lia.
      by repeat (destruct Hcases as [->|Hcases]; [reflexivity|]); subst.
  - intros Hn. by rewrite set_http_content_length_overflow; [|vm_compute; lia|done|done].
Qed.

Lemma set_http_content_length_spec_witness :
  (∃ headers,
       set_http_content_length http_header_k 123 = Some (true, headers)
       ∧ length headers = http_header_size_k
       ∧ (length (decimal 123) ≤ http_header_length_capacity_k)%nat
       ∧ Forall is_digit (decimal 123)
       ∧ from_digits (decimal 123) = 123
       ∧ (123 ≠ 0 → 10 ^ (N.of_nat (length (decimal 123)) - 1) ≤ 123)
       ∧ (∀ i, (i < length (decimal 123))%nat →
               headers !! (http_header_length_offset_k + i)%nat = decimal 123 !! i)
       ∧ (∀ i, (length (decimal 123) ≤ i < http_header_length_capacity_k)%nat →
               headers !! (http_header_length_offset_k + i)%nat = Some " "%char)
       ∧ (∀ i, (i < http_header_length_offset_k
                ∨ http_header_length_offset_k + length (decimal 123) ≤ i)%nat →
               headers !! i = http_header_k !! i))
  ∧ fst <$> set_http_content_length http_header_k 1000000000 = Some false.
Proof.
  split.
  - apply (proj1 (set_http_content_length_spec 123 ltac:(reflexivity))). reflexivity.
  - apply (proj2 (set_http_content_length_spec 1000000000 ltac:(reflexivity))).
    vm_compute. discriminate.
Defined.

(** ** The allocator and default construction *)

Section cells.
Context {T : Type} (default_construct : T → T).

Lemma malloc_fails n : malloc (T:=T) n None = None.
Proof. reflexivity. Qed.

Lemma realloc_fails (old : list T) n : realloc old n None = None.
Proof. reflexivity. Qed.

Lemma malloc_length n outcome (mem : list T) :
  malloc n outcome = Some mem → length mem = N.to_nat n.
Proof.
  destruct outcome as [fresh|]; simpl; [|done].
  intros [= <-]. by rewrite length_fmap, length_seq.
Qed.

(** Growing a block keeps its cells and appends fresh ones. *)
Lemma realloc_grows (old : list T) n fresh :
  (length old ≤ N.to_nat n)%nat →
  realloc old n (Some fresh)
  = Some (old ++ (fresh <$> seq (length old) (N.to_nat n - length old))).
Proof. intros Hle. unfold realloc. simpl. by rewrite take_ge. Qed.

Lemma construct_length (block : list T) first last :
  (first ≤ last ≤ length block)%nat →
  length (uninitialized_default_construct default_construct block first last) = length block.
Proof.
  intros Hrange. unfold uninitialized_default_construct.
  rewrite !length_app, length_fmap, !length_take, !length_drop. lia.
Qed.

(** Constructing exactly the cells appended behind [old]. *)
Lemma construct_appended (old extra : list T) last :
  last = (length old + length extra)%nat →
  uninitialized_default_construct default_construct (old ++ extra) (length old) last
  = old ++ (default_construct <$> extra).
Proof.
  intros ->. unfold uninitialized_default_construct.
  rewrite take_app_length, drop_app_length.
  rewrite take_ge by lia.
  rewrite drop_ge by (rewrite length_app; lia).
  by rewrite app_nil_r.
Qed.
End cells.

(** ** [array_gt] *)

Section array_properties.
Context {T : Type} (default_construct : T → T).
Import array_gt.

Abbreviation reserve := (reserve default_construct).
Abbreviation reserve_all := (reserve_all default_construct).

Lemma array_empty_wf : wf (@empty T).
Proof. by vm_compute. Qed.

Lemma array_block_mk (cells : list T) count capacity :
  block (mk (Some cells) count capacity) = cells.
Proof. reflexivity. Qed.

Lemma array_reserve_noop (a : t T) n outcome :
  n ≤ capacity_ a → reserve a n outcome = (true, a).
Proof. intros Hle. unfold reserve. by rewrite (proj2 (N.leb_le _ _) Hle). Qed.

(** A failed allocation leaves the array as it was. *)
Lemma array_reserve_fails (a : t T) n :
  capacity_ a < n → reserve a n None = (false, a).
Proof.
  intros Hlt. unfold reserve. rewrite (proj2 (N.leb_gt _ _) Hlt).
  by destruct (elements_ a).
Qed.

(** A successful growth: the old cells, then the default-constructed
    fresh cells. *)
Lemma array_reserve_grows (a : t T) n fresh :
  wf a → capacity_ a < n →
  reserve a n (Some fresh)
  = (true, mk (Some (block a ++ (default_construct ∘ fresh
                                   <$> seq (N.to_nat (capacity_ a))
                                           (N.to_nat n - N.to_nat (capacity_ a)))))
              (count_ a) n).
Proof.
  intros (Hlen & Hcount & Hcap) Hlt. unfold reserve.
  rewrite (proj2 (N.leb_gt _ _) Hlt).
  assert (Hgrown :
    match elements_ a with
    | Some old => realloc old n (Some fresh)
    | None => malloc n (Some fresh)
    end = Some (block a ++ (fresh <$> seq (length (block a)) (N.to_nat n - length (block a))))).
  { unfold block in *. destruct (elements_ a) as [old|]; cbn [default] in *.
    - apply realloc_grows. lia.
    - unfold malloc. simpl. by rewrite Nat.sub_0_r. }
  rewrite Hgrown. do 3 f_equal.
  rewrite <- Hlen, construct_appended.
  - by rewrite list_fmap_compose.
  - rewrite length_fmap, length_seq. lia.
Qed.

Lemma array_reserve_wf (a : t T) n outcome :
  wf a → n < size_modulus → wf (reserve a n outcome).2.
Proof.
  intros Hwf Hn. destruct (N.le_gt_cases n (capacity_ a)) as [Hle|Hlt].
  { by rewrite array_reserve_noop. }
  destruct outcome as [fresh|].
  - rewrite array_reserve_grows by done. destruct Hwf as (Hlen & Hcount & Hcap).
    split_and!; simpl; [|lia|done].
    rewrite array_block_mk, length_app, length_fmap, length_seq. lia.
  - by rewrite array_reserve_fails.
Qed.

(** A successful [reserve] keeps the count and the appended elements. *)
Lemma array_reserve_contents (a : t T) n outcome :
  wf a → (reserve a n outcome).1 = true →
  count_ (reserve a n outcome).2 = count_ a
  ∧ contents (reserve a n outcome).2 = contents a
  ∧ capacity_ a ≤ capacity_ (reserve a n outcome).2.
Proof.
  intros Hwf Hok. destruct (N.le_gt_cases n (capacity_ a)) as [Hle|Hlt].
  { by rewrite array_reserve_noop. }
  destruct outcome as [fresh|].
  - rewrite array_reserve_grows by done. destruct Hwf as (Hlen & Hcount & Hcap).
    split_and!; simpl; [done| |lia].
    unfold contents. rewrite array_block_mk. simpl. by rewrite take_app_le by lia.
  - rewrite array_reserve_fails in Hok by done. done.
Qed.

Lemma array_reserve_all_contents (a : t T) requests :
  wf a →
  Forall (fun request => request.1 < size_modulus) requests →
  Forall (fun result => result.1 = true) (reserve_all a requests) →
  Forall (fun result => count_ result.2 = count_ a ∧ contents result.2 = contents a)
         (reserve_all a requests).
Proof.
  revert a. induction requests as [|[n outcome] requests IH]; intros a Hwf Hsz Hok; simpl.
  { constructor. }
  simpl in Hok. apply Forall_cons in Hok as [Hok Hoks]. apply Forall_cons in Hsz as [Hn Hsz].
  destruct (array_reserve_contents a n outcome Hwf Hok) as (Hcount & Hcont & _).
  apply Forall_cons. split; [done|].
  rewrite <- Hcount, <- Hcont.
  apply IH; [by apply array_reserve_wf|done|done].
Qed.

(** The other operations keep the array well formed, so that every array
    built through the interface is. *)
Lemma array_reset_wf (a : t T) : wf (reset a).
Proof. by vm_compute. Qed.

Lemma array_push_back_reserved_wf (a a' : t T) element :
  wf a → push_back_reserved a element = Some a' →
  wf a' ∧ contents a' = contents a ++ [element].
Proof.
  intros (Hlen & Hcount & Hcap). unfold push_back_reserved, wf, contents, block in *.
  destruct (elements_ a) as [cells|]; [|done]. simpl in Hlen. cbn [mbind option_bind].
  case_decide as Hroom; [|done]. intros [= <-]. cbn.
  rewrite length_insert, size_incr_small by lia. split; [lia|].
  replace (N.to_nat (count_ a + 1)) with (S (N.to_nat (count_ a))) by lia.
  destruct (lookup_lt_is_Some_2 cells (N.to_nat (count_ a)) Hroom) as [x Hx].
  rewrite (take_S_r _ _ element) by (by apply list_lookup_insert_eq).
  by rewrite take_insert_ge by lia.
Qed.

Lemma array_pop_back_wf (a : t T) n : wf a → n ≤ count_ a → wf (pop_back a n).
Proof.
  intros (Hlen & Hcount & Hcap) Hn. unfold pop_back, wf, block in *. cbn.
  split; [done|]. split; [|done].
  rewrite (N.mod_small n) by lia.
  replace (count_ a + (size_modulus - n)) with ((count_ a - n) + 1 * size_modulus) by lia.
  rewrite N.Div0.mod_add, N.mod_small by lia. lia.
Qed.

Lemma array_append_n_wf (a : t T) elements n outcome ok a' :
  wf a → append_n default_construct a elements n outcome = Some (ok, a') → wf a'.
Proof.
  intros Hwf. unfold append_n.
  assert (Hn : size a +s n < size_modulus) by (apply N.mod_lt; by vm_compute).
  pose proof (array_reserve_wf a (size a +s n) outcome Hwf Hn) as Hwf1.
  destruct (reserve a (size a +s n) outcome) as [ok1 a1]. cbn [snd] in Hwf1.
  destruct ok1; [|by intros [= _ <-]].
  destruct Hwf1 as (Hlen & Hcount & Hcap). unfold wf, block in *.
  destruct (elements_ a1) as [cells|]; simpl in Hlen.
  - case_decide as Hroom; [|done]. intros [= _ <-]. cbn.
    rewrite length_inserts. split; [done|]. split; [|done].
    rewrite size_add_small by lia. lia.
  - destruct (N.eqb_spec n 0) as [->|]; [|done]. intros [= _ <-]. cbn.
    split; [done|]. split; [|done]. rewrite size_add_small by lia. lia.
Qed.

End array_properties.


(** ** Failed allocations *)

Section allocation_failure.
Context {T : Type} (default_construct : T → T).

(** [pool_gt::reserve] tests the allocator's answer before it stores
    anything. *)
Lemma pool_reserve_fails (p : pool_gt.t T) n :
  pool_gt.reserve default_construct p n None = (false, p).
Proof. reflexivity. Qed.

(** [buffer_gt::resize] has stored the null pointer when it returns
    false. *)
Lemma buffer_resize_fails (b : buffer_gt.t T) n :
  buffer_gt.resize default_construct b n None
  = (false, buffer_gt.mk None (buffer_gt.capacity_ b)).
Proof. reflexivity. Qed.
End allocation_failure.

(** [round_robin_gt::alloc] tests the allocator's answer before it stores
    anything. *)
Lemma ring_alloc_fails (r : round_robin_gt.t) n :
  round_robin_gt.alloc r n None = (false, r).
Proof. reflexivity. Qed.

(** C9, at a buffer that holds a block: a buffer resized to four cells and
    then resized to eight with an allocation that fails.  The second call
    returns false, as specified, yet the buffer is not what it was: the
    data pointer is null (the four cells are lost) while the capacity still
    reads 4.  [array_gt::reserve], [pool_gt::reserve] and
    [round_robin_gt::alloc] keep their state on failure
    ([array_reserve_fails], [pool_reserve_fails], [ring_alloc_fails]). *)
Theorem buffer_resize_failure_drops_block :
  ∃ b,
    buffer_gt.resize id buffer_gt.empty 4 (Some zero_cells) = (true, b)
    ∧ buffer_gt.data b = Some [0; 0; 0; 0]
    ∧ buffer_gt.capacity b = 4
    ∧ ∃ b',
        buffer_gt.resize id b 8 None = (false, b')
        ∧ buffer_gt.data b' = None
        ∧ buffer_gt.capacity b' = 4
        ∧ b' ≠ b.
Proof.
  eexists. split; [reflexivity|]. split; [reflexivity|]. split; [reflexivity|].
  eexists. split; [reflexivity|]. split; [reflexivity|]. split; [reflexivity|].
  discriminate.
Qed.

(** ** [pool_gt] *)

Section pool_properties.
Context {T : Type} (default_construct : T → T).
Import pool_gt.

Abbreviation pool_reserve := (pool_gt.reserve default_construct).

Lemma iota_length n : length (iota n) = N.to_nat n.
Proof. unfold iota. by rewrite length_fmap, length_seq. Qed.

Lemma iota_lookup n (i : nat) : (i < N.to_nat n)%nat → iota n !! i = Some (N.of_nat i).
Proof. intros Hi. unfold iota. by rewrite list_lookup_fmap, lookup_seq_lt. Qed.

Lemma pool_reserve_succeeds (p0 : t T) n fresh :
  n < size_modulus →
  ∃ p, pool_reserve p0 n (Some fresh) = (true, p)
     ∧ wf p ∧ capacity_ p = n ∧ free_count_ p = n ∧ free_offsets_ p = iota n.
Proof.
  intros Hn. eexists. split; [reflexivity|]. simpl.
  split_and!; try done. unfold wf. simpl. rewrite iota_length. lia.
Qed.

(** With the offsets as [reserve] leaves them, [k] free elements give [k]
    successful allocations, from offset [k - 1] down to 0. *)
Lemma pool_allocs_fresh (k : nat) (p : t T) n :
  n < size_modulus → free_offsets_ p = iota n → (k ≤ N.to_nat n)%nat →
  free_count_ p = N.of_nat k →
  allocs k p
  = Some ((fun i => element_ptr (N.of_nat i)) <$> reverse (seq 0 k),
          mk (capacity_ p) 0 (elements_ p) (free_offsets_ p)).
Proof.
  intros Hn Hiota. revert p Hiota.
  induction k as [|k IH]; intros p Hiota Hk Hcount.
  { simpl. destruct p. simpl in *. by subst. }
  cbn [allocs]. unfold alloc. rewrite Hcount.
  destruct (N.eqb_spec (N.of_nat (S k)) 0) as [|_]; [lia|].
  rewrite size_decr_pos by (unfold size_modulus in *; lia).
  replace (N.of_nat (S k) - 1) with (N.of_nat k) by lia.
  rewrite Nat2N.id, Hiota, iota_lookup by lia. cbn [mbind option_bind].
  rewrite IH; [|done|lia|done]. cbn [mbind option_bind capacity_ elements_ free_offsets_].
  by rewrite seq_S, reverse_snoc.
Qed.

(** Releasing into a pool with an element outstanding, then allocating,
    hands the released element out again. *)
Lemma pool_release_alloc (p : t T) released :
  wf p → free_count_ p < capacity_ p →
  release p released
  = Some (mk (capacity_ p) (free_count_ p + 1) (elements_ p)
             (<[N.to_nat (free_count_ p) := released]> (free_offsets_ p)))
  ∧ alloc (mk (capacity_ p) (free_count_ p + 1) (elements_ p)
              (<[N.to_nat (free_count_ p) := released]> (free_offsets_ p)))
    = Some (element_ptr released,
            mk (capacity_ p) (free_count_ p) (elements_ p)
               (<[N.to_nat (free_count_ p) := released]> (free_offsets_ p))).
Proof.
  intros (Hlen & Hcount & Hcap) Hroom. split.
  - unfold release. rewrite decide_True by lia.
    by rewrite size_incr_small by lia.
  - unfold alloc. cbn [free_count_ free_offsets_ capacity_ elements_].
    destruct (N.eqb_spec (free_count_ p + 1) 0) as [|_]; [lia|].
    rewrite size_decr_pos by lia.
    replace (free_count_ p + 1 - 1) with (free_count_ p) by lia.
    by rewrite list_lookup_insert_eq by lia.
Qed.

Lemma remove_first_length x l :
  x ∈ l → length l = S (length (remove_first x l)).
Proof.
  induction l as [|y l IH]; intros Hin; [by apply elem_of_nil in Hin|].
  simpl. case_decide; [done|].
  apply elem_of_cons in Hin as [|Hin]; [done|]. simpl. by rewrite <- IH.
Qed.


Lemma pool_alloc_balanced (p : t T) outstanding :
  balanced p outstanding →
  (free_count_ p = 0 ∧ alloc p = Some (nullptr, p))
  ∨ (∃ offset p',
        alloc p = Some (element_ptr offset, p') ∧ balanced p' (offset :: outstanding)).
Proof.
  intros [(Hlen & Hcount & Hcap) Hsum]. unfold alloc.
  destruct (N.eqb_spec (free_count_ p) 0) as [Hzero|Hpos]; [by left|right].
  rewrite size_decr_pos by lia.
  destruct (lookup_lt_is_Some_2 (free_offsets_ p) (N.to_nat (free_count_ p - 1)))
    as [offset Hoffset]; [lia|].
  rewrite Hoffset. eexists _, _. split; [reflexivity|].
  unfold balanced, wf. simpl. lia.
Qed.

Lemma pool_release_balanced (p : t T) outstanding released :
  balanced p outstanding → released ∈ outstanding →
  ∃ p', release p released = Some p'
      ∧ balanced p' (remove_first released outstanding).
Proof.
  intros [Hwf Hsum] Hin. pose proof (remove_first_length _ _ Hin) as Hlen.
  destruct (pool_release_alloc p released Hwf) as [Hrel _]; [lia|].
  eexists. split; [exact Hrel|].
  destruct Hwf as (Hoffsets & Hcount & Hcap).
  unfold balanced, wf. simpl. rewrite length_insert. lia.
Qed.

Lemma pool_run_balanced ops (p : t T) outstanding q outstanding' :
  balanced p outstanding → run p outstanding ops = Some (q, outstanding') →
  balanced q outstanding'.
Proof.
  revert p outstanding. induction ops as [|[|released] ops IH]; intros p outstanding Hbal Hrun.
  - simpl in Hrun. by injection Hrun as <- <-.
  - simpl in Hrun.
    destruct (pool_alloc_balanced p outstanding Hbal)
      as [[_ Halloc]|(offset & p' & Halloc & Hbal')];
      rewrite Halloc in Hrun; simpl in Hrun; eauto.
  - simpl in Hrun. case_decide as Hin; [|done].
    destruct (pool_release_balanced p outstanding released Hbal Hin) as (p' & Hrel & Hbal').
    rewrite Hrel in Hrun. simpl in Hrun. eauto.
Qed.

End pool_properties.


(** ** [round_robin_gt] *)

Section ring_properties.
Import round_robin_gt.

Lemma umod_pos a b : 0 < b → umod a b = Some (a mod b).
Proof. intros Hb. unfold umod. destruct (N.eqb_spec b 0); [lia|done]. Qed.

Lemma ring_allocated_wf n fresh : 0 < n < size_modulus → wf (allocated n fresh).
Proof.
  intros Hn. unfold allocated, alloc, malloc, wf. simpl.
  eexists. split; [done|]. rewrite length_fmap, length_seq.
  split_and!; try lia. by rewrite N.Div0.mod_0_l.
Qed.

Lemma ring_next_index i capacity :
  i < capacity → capacity < size_modulus → size_incr i = i + 1.
Proof. intros. apply size_incr_small. lia. Qed.

(** [push_ahead] below capacity is defined and keeps the members in
    range. *)
Lemma ring_push_ahead_wf r new_ :
  wf r → count_ r < capacity_ r →
  ∃ r', push_ahead r new_ = Some r'
      ∧ wf r'
      ∧ count_ r' = count_ r + 1
      ∧ capacity_ r' = capacity_ r
      ∧ idx_oldest_ r' = idx_oldest_ r
      ∧ idx_to_poll_ r' = idx_to_poll_ r.
Proof.
  intros (circle & Hcircle & Hlen & Hcap & Hcount & Hold & Hnew & Hpoll & Hrel) Hroom.
  unfold push_ahead. rewrite Hcircle. cbn [mbind option_bind].
  rewrite decide_True by lia.
  rewrite umod_pos by lia. cbn [mbind option_bind].
  rewrite (ring_next_index _ (capacity_ r)) by lia.
  rewrite size_incr_small by lia.
  eexists. split; [reflexivity|]. split; [|done].
  eexists. split; [reflexivity|]. cbn.
  rewrite length_insert.
  split_and!; try lia.
  - apply N.mod_lt. lia.
  - rewrite Hrel, N.Div0.add_mod_idemp_l. f_equal. lia.
Qed.

(** [drop_tail] on a ring that is not empty is defined and keeps the
    members in range. *)
Lemma ring_drop_tail_wf r :
  wf r → 0 < count_ r →
  ∃ old r', drop_tail r = Some (old, r')
      ∧ wf r'
      ∧ count_ r' = count_ r - 1
      ∧ capacity_ r' = capacity_ r
      ∧ idx_oldest_ r' = (idx_oldest_ r + 1) mod capacity_ r
      ∧ idx_to_poll_ r' = (if idx_to_poll_ r =? idx_oldest_ r
                           then (idx_oldest_ r + 1) mod capacity_ r
                           else idx_to_poll_ r)
      ∧ descriptor <$> slot r' (idx_oldest_ r) = Some bad_descriptor_k.
Proof.
  intros (circle & Hcircle & Hlen & Hcap & Hcount & Hold & Hnew & Hpoll & Hrel) Hlive.
  unfold drop_tail. rewrite Hcircle. cbn [mbind option_bind].
  destruct (lookup_lt_is_Some_2 circle (N.to_nat (idx_oldest_ r))) as [oldest Holdest]; [lia|].
  rewrite Holdest. cbn [mbind option_bind].
  rewrite !umod_pos by lia.
  rewrite (ring_next_index (idx_oldest_ r) (capacity_ r)) by lia.
  rewrite (ring_next_index (idx_to_poll_ r) (capacity_ r)) by lia.
  rewrite size_decr_pos by lia.
  destruct (N.eqb_spec (idx_to_poll_ r) (idx_oldest_ r)) as [Heq|Hne];
    cbn [mbind option_bind].
  - eexists _, _. split; [reflexivity|]. rewrite Heq. split_and!; try done.
    + eexists. split; [reflexivity|]. cbn. rewrite length_insert.
      assert ((idx_oldest_ r + 1) mod capacity_ r < capacity_ r) by (apply N.mod_lt; lia).
      split_and!; try lia.
      rewrite Hrel, N.Div0.add_mod_idemp_l. f_equal. lia.
    + unfold slot. cbn. by rewrite list_lookup_insert_eq by lia.
  - eexists _, _. split; [reflexivity|]. split_and!; try done.
    + eexists. split; [reflexivity|]. cbn. rewrite length_insert.
      assert ((idx_oldest_ r + 1) mod capacity_ r < capacity_ r) by (apply N.mod_lt; lia).
      split_and!; try lia.
      rewrite Hrel, N.Div0.add_mod_idemp_l. f_equal. lia.
    + unfold slot. cbn. by rewrite list_lookup_insert_eq by lia.
Qed.

(** [poll] on a ring that is not empty is defined and keeps the members
    in range; the slot it returns is the one under the cursor after the
    move, and the move is computed modulo [count_]. *)
Lemma ring_poll_wf r :
  wf r → 0 < count_ r →
  ∃ r', poll r = Some (idx_to_poll_ r', r')
      ∧ wf r'
      ∧ idx_to_poll_ r' = (if (idx_to_poll_ r + 1) mod count_ r =? idx_newest_ r
                           then idx_oldest_ r
                           else (idx_to_poll_ r + 1) mod count_ r)
      ∧ circle_ r' = circle_ r
      ∧ count_ r' = count_ r
      ∧ capacity_ r' = capacity_ r
      ∧ idx_oldest_ r' = idx_oldest_ r
      ∧ idx_newest_ r' = idx_newest_ r.
Proof.
  intros (circle & Hcircle & Hlen & Hcap & Hcount & Hold & Hnew & Hpoll & Hrel) Hlive.
  unfold poll. rewrite Hcircle. cbn [mbind option_bind].
  rewrite umod_pos by lia. cbn [mbind option_bind].
  rewrite (ring_next_index (idx_to_poll_ r) (capacity_ r)) by lia.
  assert (Hfollowing : (idx_to_poll_ r + 1) mod count_ r < capacity_ r).
  { eapply N.lt_le_trans; [apply N.mod_lt; lia|done]. }
  set (idx := if (idx_to_poll_ r + 1) mod count_ r =? idx_newest_ r
              then idx_oldest_ r else (idx_to_poll_ r + 1) mod count_ r).
  assert (Hidx : idx < capacity_ r) by (unfold idx; by case_match).
  rewrite decide_True by lia.
  exists (mk (Some circle) (count_ r) (capacity_ r) (idx_newest_ r) (idx_oldest_ r) idx).
  split; [reflexivity|]. cbn. split_and!; try done.
  eexists. split; [reflexivity|]. cbn. split_and!; try done; lia.
Qed.

Lemma ring_step_wf r o r' : wf r → step r o = Some r' → wf r'.
Proof.
  intros Hwf Hstep. destruct o as [new_| |]; simpl in Hstep; case_decide as Hpre; try done.
  - destruct (ring_push_ahead_wf r new_ Hwf Hpre) as (r1 & Hpush & Hwf1 & _).
    unfold size, capacity in *. congruence.
  - destruct (ring_drop_tail_wf r Hwf Hpre) as (old & r1 & Hdrop & Hwf1 & _).
    rewrite Hdrop in Hstep. simpl in Hstep. congruence.
  - destruct (ring_poll_wf r Hwf Hpre) as (r1 & Hpoll & Hwf1 & _).
    rewrite Hpoll in Hstep. simpl in Hstep. congruence.
Qed.

(** A call whose obligation holds never runs into undefined behaviour. *)
Lemma ring_step_defined r o :
  wf r →
  match o with
  | PushAhead _ => size r < capacity r
  | DropTail | Poll => 0 < size r
  end →
  is_Some (step r o).
Proof.
  intros Hwf Hpre. destruct o as [new_| |]; simpl; rewrite decide_True by done.
  - destruct (ring_push_ahead_wf r new_ Hwf Hpre) as (r1 & -> & _). done.
  - destruct (ring_drop_tail_wf r Hwf Hpre) as (old & r1 & -> & _). done.
  - destruct (ring_poll_wf r Hwf Hpre) as (r1 & -> & _). done.
Qed.

(** The part of the ring invariant that holds in every run: the count is
    at most the capacity and the three indices are below it. *)
Lemma ring_run_wf ops r r' : wf r → run r ops = Some r' → wf r'.
Proof.
  revert r. induction ops as [|o ops IH]; intros r Hwf Hrun; simpl in Hrun.
  - congruence.
  - destruct (step r o) as [r1|] eqn:Hstep; [|done]. simpl in Hrun.
    eapply IH; [|done]. by eapply ring_step_wf.
Qed.

Lemma ring_run_bounds ops n fresh r :
  0 < n < size_modulus → run (allocated n fresh) ops = Some r →
  capacity_ r = n ∧ count_ r ≤ capacity_ r
  ∧ idx_oldest_ r < capacity_ r ∧ idx_newest_ r < capacity_ r
  ∧ idx_to_poll_ r < capacity_ r.
Proof.
  intros Hn Hrun.
  assert (Hcap : ∀ ops r0, wf r0 → run r0 ops = Some r → capacity_ r = capacity_ r0).
  { clear. intros ops. induction ops as [|o ops IH]; intros r0 Hwf Hrun; simpl in Hrun.
    - congruence.
    - destruct (step r0 o) as [r1|] eqn:Hstep; [|done]. simpl in Hrun.
      rewrite (IH r1); [|by eapply ring_step_wf|done].
      destruct o as [new_| |]; simpl in Hstep; case_decide as Hpre; try done.
      + destruct (ring_push_ahead_wf r0 new_ Hwf Hpre) as (r2 & Hpush & _ & _ & Hc & _).
        congruence.
      + destruct (ring_drop_tail_wf r0 Hwf Hpre) as (old & r2 & Hdrop & _ & _ & Hc & _).
        rewrite Hdrop in Hstep. simpl in Hstep. congruence.
      + destruct (ring_poll_wf r0 Hwf Hpre) as (r2 & Hpoll & _ & _ & _ & _ & Hc & _).
        rewrite Hpoll in Hstep. simpl in Hstep. congruence. }
  pose proof (ring_allocated_wf n fresh Hn) as Hwf0.
  destruct (ring_run_wf ops _ r Hwf0 Hrun) as (circle & _ & _ & _ & ? & ? & ? & ? & _).
  split_and!; try done. by rewrite (Hcap ops _ Hwf0 Hrun).
Qed.

(** Eviction under the cursor: when [drop_tail] is called with the cursor
    on the oldest slot, the cursor moves to the new oldest slot, which is
    live unless the ring has become empty, and which is not the evicted
    slot unless the ring has a single slot. *)
Lemma ring_drop_tail_cursor r :
  wf r → 0 < count_ r → idx_to_poll_ r = idx_oldest_ r →
  ∃ old r', drop_tail r = Some (old, r')
      ∧ idx_to_poll_ r' = idx_oldest_ r'
      ∧ (0 < count_ r' → idx_to_poll_ r' ∈ live_slots r')
      ∧ (1 < capacity_ r → idx_to_poll_ r' ≠ idx_oldest_ r).
Proof.
  intros Hwf Hlive Hcursor.
  destruct (ring_drop_tail_wf r Hwf Hlive)
    as (old & r' & Hdrop & Hwf' & Hcount & Hcap & Hold & Hpoll & _).
  exists old, r'. split; [done|].
  rewrite Hcursor, N.eqb_refl in Hpoll.
  destruct Hwf as (_ & _ & _ & ? & _ & ? & _).
  split_and!.
  - congruence.
  - intros Hlive'. unfold live_slots. apply list_elem_of_fmap. exists 0%nat. split.
    + rewrite Hpoll, Hcap, Hold, N.add_0_r. by rewrite N.Div0.mod_mod.
    + apply elem_of_seq. lia.
  - intros Hcap1. rewrite Hpoll.
    destruct (decide (idx_oldest_ r + 1 < capacity_ r)) as [Hlt|Hge].
    + rewrite N.mod_small by done. lia.
    + replace (idx_oldest_ r + 1) with (capacity_ r) by lia.
      rewrite N.Div0.mod_same. lia.
Qed.

(** C1, at a ring of four slots after three [push_ahead] and one
    [drop_tail]: two connections are live, in the slots 1 and 2, and the
    cursor is on slot 1.  Two polls should return the slots 1 and 2; they
    return slot 0, whose connection was evicted, and slot 1, and the
    connection in slot 2 is not visited. *)
Theorem poll_cycle_misses_live_slot :
  ∃ r,
    run (allocated 4 zero_connections)
        [PushAhead 10%Z; PushAhead 20%Z; PushAhead 30%Z; DropTail] = Some r
    ∧ size r = 2
    ∧ live_slots r = [1; 2]
    ∧ idx_to_poll_ r = 1
    ∧ cycle_from_cursor r = [1; 2]
    ∧ ∃ r',
        polls 2 r = Some ([0; 1], r')
        ∧ descriptor <$> slot r' 0 = Some bad_descriptor_k
        ∧ descriptor <$> slot r' 1 = Some 20%Z
        ∧ descriptor <$> slot r' 2 = Some 30%Z.
Proof.
  eexists. split; [by vm_compute|]. do 4 (split; [by vm_compute|]).
  eexists. split; [by vm_compute|]. by vm_compute.
Qed.

(** C2, at a ring of four slots after three [push_ahead]: the cursor is
    on slot 0, which holds descriptor 10; [poll] returns slot 1, which
    holds descriptor 20, the slot under the cursor after the move.  And
    after a further [drop_tail] the cursor is on slot 1, the next slot in
    insertion order is slot 2, and [poll] moves the cursor to slot 0,
    because the move is computed modulo the count 2, not the capacity 4. *)
Theorem poll_returns_slot_after_move :
  ∃ r,
    run (allocated 4 zero_connections) [PushAhead 10%Z; PushAhead 20%Z; PushAhead 30%Z] = Some r
    ∧ idx_to_poll_ r = 0
    ∧ descriptor <$> slot r 0 = Some 10%Z
    ∧ (∃ r', poll r = Some (1, r')
           ∧ idx_to_poll_ r' = 1
           ∧ descriptor <$> slot r' 1 = Some 20%Z)
    ∧ ∃ q,
        step r DropTail = Some q
        ∧ idx_to_poll_ q = 1
        ∧ live_slots q = [1; 2]
        ∧ ∃ q', poll q = Some (0, q') ∧ idx_to_poll_ q' = 0.
Proof.
  eexists. split; [by vm_compute|]. do 2 (split; [by vm_compute|]). split.
  - eexists. split; [by vm_compute|]. by vm_compute.
  - eexists. split; [by vm_compute|]. do 2 (split; [by vm_compute|]).
    eexists. split; by vm_compute.
Qed.

(** C3, at the state reached from an allocated empty ring of four slots
    by three [push_ahead], one [drop_tail] and one [poll], each under its
    obligation: the count (2) and the indices are in range, but the cursor
    is on slot 0, the slot that was just evicted, which is neither live
    nor the oldest slot.  The bounds on the count and the indices hold in
    every run ([ring_run_bounds]), and so does the statement about
    [drop_tail] ([ring_drop_tail_cursor]); it is [poll] that takes the
    cursor off the live slots. *)
Theorem poll_parks_cursor_on_evicted_slot :
  ∃ r,
    run (allocated 4 zero_connections)
        [PushAhead 10%Z; PushAhead 20%Z; PushAhead 30%Z; DropTail; Poll] = Some r
    ∧ size r = 2
    ∧ capacity r = 4
    ∧ idx_oldest_ r = 1
    ∧ idx_newest_ r = 3
    ∧ live_slots r = [1; 2]
    ∧ idx_to_poll_ r = 0
    ∧ (idx_to_poll_ r ∉ live_slots r)
    ∧ idx_to_poll_ r ≠ idx_oldest_ r
    ∧ descriptor <$> slot r (idx_to_poll_ r) = Some bad_descriptor_k.
Proof.
  eexists. split; [by vm_compute|]. do 6 (split; [by vm_compute|]). split_and!.
  - vm_compute. intros Hin.
    repeat (apply elem_of_cons in Hin as [Hin|Hin]; [done|]).
    by apply elem_of_nil in Hin.
  - by vm_compute.
  - by vm_compute.
Qed.
End ring_properties.

(** * Further properties *)

(** ** Reply encoder: the envelopes for arbitrary payloads *)

Lemma take_size (s : bytes) : take (N.to_nat (size s)) s = s.
Proof. unfold size. rewrite Nat2N.id. by apply take_ge. Qed.

Lemma iovec_bytes_view (s : bytes) : iovec_bytes (mk_iovec s (size s)) = s.
Proof. apply take_size. Qed.

Lemma size_app (s1 s2 : bytes) : size (s1 ++ s2) = size s1 + size s2.
Proof. unfold size. rewrite length_app. lia. Qed.

(** Sums that do not wrap, innermost first. *)
Ltac size_add_exact :=
  repeat match goal with
         | |- context [?a +s ?b] =>
             lazymatch a with
             | context [size_add] => fail
             | _ => rewrite (size_add_small a b) by lia
             end
         end.

Lemma iovecs_memcpy_S n iovecs :
  iovecs_memcpy (S n) iovecs
  = iovecs_memcpy n iovecs ++ from_option iovec_bytes [] (iovecs !! n).
Proof. unfold iovecs_memcpy. by rewrite seq_S, foldl_app. Qed.

Lemma iovecs_length_S n iovecs :
  iovecs_length (S n) iovecs = iovecs_length n iovecs +s iov_len_at iovecs n.
Proof. unfold iovecs_length. by rewrite seq_S, foldl_app. Qed.

(** X1: for every request id, body and comma flag, [fill_with_content]
    fills the first five entries of the caller's array (and no other) with
    ranges that concatenate to the prefix, the id, the result separator,
    the body and the closing brace, followed by a comma exactly when the
    flag is set; the returned total is the length of that text whenever it
    fits a [std::size_t]. *)
Theorem fill_with_content_wire (buffers : list iovec) (request_id body : bytes)
    (append_comma : bool) :
  (5 ≤ length buffers)%nat →
  ∃ filled total,
    fill_with_content buffers request_id body append_comma = Some (filled, total)
    ∧ iovecs_memcpy 5 filled
      = response_protocol_prefix_k ++ request_id ++ result_separator ++ body
          ++ (if append_comma then bytes_of "}," else bytes_of "}")
    ∧ length filled = length buffers
    ∧ drop 5 filled = drop 5 buffers
    ∧ (size request_id + size body + 34 < size_modulus →
       total = size (iovecs_memcpy 5 filled)).
Proof.
  intros Hlen.
  destruct buffers as [|b0 [|b1 [|b2 [|b3 [|b4 rest]]]]]; simpl in Hlen; try lia.
  unfold fill_with_content, iovecs_for_content_k. rewrite decide_True by (simpl; lia).
  eexists _, _. split; [reflexivity|]. cbn [insert list_insert].
  assert (Hcat : iovecs_memcpy 5
      (mk_iovec response_protocol_prefix_k 22 :: mk_iovec request_id (size request_id)
       :: mk_iovec result_separator 10 :: mk_iovec body (size body)
       :: mk_iovec content_protocol_suffix (1 + N.b2n append_comma) :: rest)
    = response_protocol_prefix_k ++ request_id ++ result_separator ++ body
        ++ (if append_comma then bytes_of "}," else bytes_of "}")).
  { rewrite !iovecs_memcpy_S. unfold iovecs_memcpy. cbn [seq foldl lookup list_lookup from_option].
    rewrite !iovec_bytes_view. rewrite <- !app_assoc. cbn [app].
    by destruct append_comma. }
  split; [exact Hcat|]. split; [done|]. split; [done|].
  intros Hfit. rewrite Hcat. unfold iov_len_at. cbn [lookup list_lookup from_option iov_len].
  rewrite !size_app.
  change (size response_protocol_prefix_k) with 22.
  change (size result_separator) with 10.
  replace (size (if append_comma then bytes_of "}," else bytes_of "}"))
    with (1 + N.b2n append_comma) by (by destruct append_comma).
  assert (N.b2n append_comma ≤ 1) by (by destruct append_comma).
  size_add_exact. lia.
Qed.

Lemma fill_with_content_wire_witness :
  ∃ filled total,
    fill_with_content (blank_iovecs 6) (bytes_of "42") (bytes_of "[1,2]") true
    = Some (filled, total)
    ∧ iovecs_memcpy 5 filled
      = response_protocol_prefix_k ++ bytes_of "42" ++ result_separator ++ bytes_of "[1,2]"
          ++ (if true then bytes_of "}," else bytes_of "}")
    ∧ length filled = length (blank_iovecs 6)
    ∧ drop 5 filled = drop 5 (blank_iovecs 6)
    ∧ (size (bytes_of "42") + size (bytes_of "[1,2]") + 34 < size_modulus →
       total = size (iovecs_memcpy 5 filled)).
Proof. apply (fill_with_content_wire (blank_iovecs 6)). simpl. lia. Defined.

(** X2: for every request id, error code, error message and comma flag,
    [fill_with_error] fills the first seven entries of the caller's array
    (and no other) with ranges that concatenate to the prefix, the id, the
    code separator, the code, the message separator, the message and the
    closing quote and braces, followed by a comma exactly when the flag is
    set; the returned total is the length of that text whenever it fits a
    [std::size_t]. *)
Theorem fill_with_error_wire (buffers : list iovec)
    (request_id error_code error_message : bytes) (append_comma : bool) :
  (7 ≤ length buffers)%nat →
  ∃ filled total,
    fill_with_error buffers request_id error_code error_message append_comma
    = Some (filled, total)
    ∧ iovecs_memcpy 7 filled
      = response_protocol_prefix_k ++ request_id ++ error_code_separator ++ error_code
          ++ error_message_separator ++ error_message
          ++ (if append_comma then dquote :: bytes_of "}}," else dquote :: bytes_of "}}")
    ∧ length filled = length buffers
    ∧ drop 7 filled = drop 7 buffers
    ∧ (size request_id + size error_code + size error_message + 55 < size_modulus →
       total = size (iovecs_memcpy 7 filled)).
Proof.
  intros Hlen.
  destruct buffers as [|b0 [|b1 [|b2 [|b3 [|b4 [|b5 [|b6 rest]]]]]]]; simpl in Hlen; try lia.
  unfold fill_with_error, iovecs_for_error_k. rewrite decide_True by (simpl; lia).
  eexists _, _. split; [reflexivity|]. cbn [insert list_insert].
  assert (Hcat : iovecs_memcpy 7
      (mk_iovec response_protocol_prefix_k 22 :: mk_iovec request_id (size request_id)
       :: mk_iovec error_code_separator 17 :: mk_iovec error_code (size error_code)
       :: mk_iovec error_message_separator 12 :: mk_iovec error_message (size error_message)
       :: mk_iovec error_protocol_suffix (3 + N.b2n append_comma) :: rest)
    = response_protocol_prefix_k ++ request_id ++ error_code_separator ++ error_code
        ++ error_message_separator ++ error_message
        ++ (if append_comma then dquote :: bytes_of "}}," else dquote :: bytes_of "}}")).
  { rewrite !iovecs_memcpy_S. unfold iovecs_memcpy. cbn [seq foldl lookup list_lookup from_option].
    rewrite !iovec_bytes_view. rewrite <- !app_assoc. cbn [app].
    by destruct append_comma. }
  split; [exact Hcat|]. split; [done|]. split; [done|].
  intros Hfit. rewrite Hcat. rewrite !size_app.
  change (size response_protocol_prefix_k) with 22.
  change (size error_code_separator) with 17.
  change (size error_message_separator) with 12.
  replace (size (if append_comma then dquote :: bytes_of "}}," else dquote :: bytes_of "}}"))
    with (3 + N.b2n append_comma) by (by destruct append_comma).
  assert (N.b2n append_comma ≤ 1) by (by destruct append_comma).
  size_add_exact. lia.
Qed.

Lemma fill_with_error_wire_witness :
  ∃ filled total,
    fill_with_error (blank_iovecs 7) (bytes_of "null") (bytes_of "-32700")
      (bytes_of "Parse error") true
    = Some (filled, total)
    ∧ iovecs_memcpy 7 filled
      = response_protocol_prefix_k ++ bytes_of "null" ++ error_code_separator
          ++ bytes_of "-32700" ++ error_message_separator ++ bytes_of "Parse error"
          ++ (if true then dquote :: bytes_of "}}," else dquote :: bytes_of "}}")
    ∧ length filled = length (blank_iovecs 7)
    ∧ drop 7 filled = drop 7 (blank_iovecs 7)
    ∧ (size (bytes_of "null") + size (bytes_of "-32700") + size (bytes_of "Parse error") + 55
         < size_modulus →
       total = size (iovecs_memcpy 7 filled)).
Proof. apply (fill_with_error_wire (blank_iovecs 7)). simpl. lia. Defined.

(** X3: for any array of ranges, each lying inside the memory at its base,
    the number of bytes [iovecs_memcpy] stores is the sum [iovecs_length]
    computes, provided that number fits a [std::size_t]. *)
Theorem iovecs_memcpy_size (n : nat) (iovecs : list iovec) :
  (n ≤ length iovecs)%nat →
  Forall (fun v => (N.to_nat (iov_len v) ≤ length (iov_base v))%nat) (take n iovecs) →
  size (iovecs_memcpy n iovecs) < size_modulus →
  size (iovecs_memcpy n iovecs) = iovecs_length n iovecs.
Proof.
  induction n as [|n IH]; intros Hlen Hranges Hfit; [done|].
  destruct (lookup_lt_is_Some_2 iovecs n) as [v Hv]; [lia|].
  rewrite (take_S_r _ _ v) in Hranges by done.
  apply Forall_app in Hranges as [Hranges Hlast].
  rewrite Forall_singleton in Hlast.
  rewrite iovecs_memcpy_S, iovecs_length_S in *.
  unfold iov_len_at. rewrite Hv in *. cbn [from_option] in *.
  rewrite size_app in *.
  assert (Hv_size : size (iovec_bytes v) = iov_len v).
  { unfold size, iovec_bytes. rewrite length_take_le by lia. lia. }
  rewrite Hv_size in *.
  rewrite <- IH; [|lia|done|lia].
  by rewrite size_add_small.
Qed.

Lemma iovecs_memcpy_size_witness :
  size (iovecs_memcpy 2 [mk_iovec (bytes_of "},") 1; mk_iovec (bytes_of "abc") 3])
  = iovecs_length 2 [mk_iovec (bytes_of "},") 1; mk_iovec (bytes_of "abc") 3].
Proof.
  apply iovecs_memcpy_size.
  - simpl. lia.
  - repeat constructor; simpl; lia.
  - reflexivity.
Defined.

(** ** The HTTP header patch: reading back and patching again *)

Lemma list_inserts_splice {A} (l k : list A) i :
  (i + length k ≤ length l)%nat →
  list_inserts i k l = take i l ++ k ++ drop (i + length k) l.
Proof.
  intros Hlen. apply list_eq. intros j.
  destruct (decide (j < i)%nat) as [Hlt|Hge].
  { rewrite list_lookup_inserts_lt by done.
    rewrite lookup_app_l by (rewrite length_take; lia). by rewrite lookup_take_lt. }
  rewrite lookup_app_r by (rewrite length_take; lia). rewrite length_take_le by lia.
  destruct (decide (j < i + length k)%nat) as [Hin|Hout].
  - destruct (decide (j < length l)%nat); [|lia].
    rewrite list_lookup_inserts by lia. by rewrite lookup_app_l by lia.
  - rewrite list_lookup_inserts_ge by lia.
    rewrite lookup_app_r by lia. rewrite lookup_drop. f_equal. lia.
Qed.

Lemma digits_prefix_app (digits rest : bytes) :
  Forall is_digit digits → digits_prefix rest = [] →
  digits_prefix (digits ++ rest) = digits.
Proof.
  intros Hdigits Hrest. induction Hdigits as [|c digits Hc _ IH]; simpl; [done|].
  rewrite decide_True by done. by rewrite IH.
Qed.

(** The patched buffer, written out. *)
Lemma set_http_content_length_splice (headers : bytes) (n : N) :
  (42 ≤ length headers)%nat → n < size_modulus → n < 10 ^ 9 →
  set_http_content_length headers n
  = Some (true, take 33 headers ++ decimal n ++ drop (33 + length (decimal n)) headers).
Proof.
  intros Hbuf Hsz Hn.
  assert (Hfit : (length (decimal n) ≤ 9)%nat) by (apply decimal_fits; [done|split; [done|lia]]).
  unfold set_http_content_length, to_chars,
    http_header_length_offset_k, http_header_length_capacity_k.
  rewrite decide_True by lia. cbn zeta.
  rewrite decide_True by lia. cbn [mbind option_bind fst snd].
  rewrite decide_False by (by intros []).
  by rewrite list_inserts_splice by lia.
Qed.

(** X4: a content length of at most nine digits patched into the header
    template is read back from the header: the digits at offset 33, up to
    the first byte that is no digit, denote the length that was
    patched. *)
Theorem http_content_length_round_trip (n : N) :
  n < 10 ^ 9 →
  ∃ headers,
    set_http_content_length http_header_k n = Some (true, headers)
    ∧ read_http_content_length headers = n.
Proof.
  intros Hn.
  assert (Hsz : n < size_modulus) by (eapply N.lt_trans; [exact Hn|by vm_compute]).
  eexists. split.
  { apply set_http_content_length_splice; [vm_compute; lia|done|done]. }
  destruct (decimal_spec n Hsz) as (Hval & Hall & Hlen & _).
  assert (Hfit : (length (decimal n) ≤ 9)%nat) by (apply decimal_fits; [done|split; [done|lia]]).
  unfold read_http_content_length, http_header_length_offset_k.
  rewrite drop_app_length' by (by vm_compute).
  rewrite digits_prefix_app; [done|done|].
  assert (Hcases : (length (decimal n) = 1 ∨ length (decimal n) = 2 ∨ length (decimal n) = 3
                    ∨ length (decimal n) = 4 ∨ length (decimal n) = 5 ∨ length (decimal n) = 6
                    ∨ length (decimal n) = 7 ∨ length (decimal n) = 8
                    ∨ length (decimal n) = 9)%nat) by lia.
  by repeat (destruct Hcases as [->|Hcases]; [reflexivity|]); rewrite Hcases.
Qed.

Lemma http_content_length_round_trip_witness :
  ∃ headers,
    set_http_content_length http_header_k 4096 = Some (true, headers)
    ∧ read_http_content_length headers = 4096.
Proof. apply (http_content_length_round_trip 4096). reflexivity. Defined.

(** X5: the patch stores the digits and nothing else, so it does not blank
    the field: when a buffer that was patched with [n1] is patched again
    with an [n2] of no more digits, the field holds the digits of [n2]
    followed by the remaining digits of [n1]. *)
Theorem http_content_length_patched_twice (headers : bytes) (n1 n2 : N) :
  (42 ≤ length headers)%nat → n1 < 10 ^ 9 → n2 < 10 ^ 9 →
  (length (decimal n2) ≤ length (decimal n1))%nat →
  ∃ once twice,
    set_http_content_length headers n1 = Some (true, once)
    ∧ set_http_content_length once n2 = Some (true, twice)
    ∧ twice = take 33 headers ++ decimal n2 ++ drop (length (decimal n2)) (decimal n1)
                ++ drop (33 + length (decimal n1)) headers.
Proof.
  intros Hbuf Hn1 Hn2 Hlen.
  assert (Hsz1 : n1 < size_modulus) by (eapply N.lt_trans; [exact Hn1|by vm_compute]).
  assert (Hsz2 : n2 < size_modulus) by (eapply N.lt_trans; [exact Hn2|by vm_compute]).
  assert (Hfit1 : (length (decimal n1) ≤ 9)%nat)
    by (apply decimal_fits; [done|split; [done|lia]]).
  eexists _, _. split; [by apply set_http_content_length_splice|].
  assert (Htake : length (take 33 headers) = 33%nat) by (rewrite length_take; lia).
  split.
  { apply set_http_content_length_splice; [|done|done].
    rewrite !length_app, Htake, length_drop. lia. }
  rewrite take_app_length' by done. do 2 f_equal.
  rewrite drop_app_ge by lia. rewrite Htake.
  replace (33 + length (decimal n2) - 33)%nat with (length (decimal n2)) by lia.
  by rewrite drop_app_le by lia.
Qed.

Lemma http_content_length_patched_twice_witness :
  ∃ once twice,
    set_http_content_length http_header_k 98765 = Some (true, once)
    ∧ set_http_content_length once 12 = Some (true, twice)
    ∧ twice = take 33 http_header_k ++ decimal 12 ++ drop (length (decimal 12)) (decimal 98765)
                ++ drop (33 + length (decimal 98765)) http_header_k.
Proof.
  apply (http_content_length_patched_twice http_header_k 98765 12);
    [vm_compute; lia|reflexivity|reflexivity|vm_compute; lia].
Defined.

(** ** Shared definitions *)

(** X6: [string_length] is idempotent in its length argument: the length
    it returns, passed back with the same pointer, is returned again, so a
    caller may normalise a length once and reuse it. *)
Theorem string_length_idempotent (c_str : option bytes) (optional_length result : N) :
  string_length c_str optional_length = Some result →
  string_length c_str result = Some result.
Proof.
  unfold string_length. destruct c_str as [mem|]; [|done].
  destruct (N.eqb_spec optional_length 0) as [_|Hne].
  - intros Hlen. by destruct (result =? 0).
  - intros [= <-]. by destruct (N.eqb_spec optional_length 0).
Qed.

Lemma string_length_idempotent_witness :
  string_length (Some (bytes_of "add" ++ [zero])) 3 = Some 3.
Proof.
  apply (string_length_idempotent (Some (bytes_of "add" ++ [zero])) 0 3). reflexivity.
Defined.

Lemma land_shifted_low (low high : N) :
  low < 2 ^ 32 → N.land (high * 2 ^ 32) low = 0.
Proof.
  intros Hlow. apply N.bits_inj_0. intros i. rewrite N.land_spec.
  destruct (N.lt_ge_cases i 32) as [Hi|Hi].
  - by rewrite N.mul_pow2_bits_low.
  - rewrite <- (N.mod_small low (2 ^ 32)) by done.
    rewrite N.mod_pow2_bits_high by done. apply andb_false_r.
Qed.

(** X7: [cpu_cycle] joins the two 32-bit halves of the counter without
    loss: the result is below [2^64], its upper half is [high] and its
    lower half is [low]. *)
Theorem cpu_cycle_halves (low high : N) :
  low < 2 ^ 32 → high < 2 ^ 32 →
  cpu_cycle low high = high * 2 ^ 32 + low
  ∧ cpu_cycle low high < 2 ^ 64
  ∧ cpu_cycle low high / 2 ^ 32 = high
  ∧ cpu_cycle low high mod 2 ^ 32 = low.
Proof.
  intros Hlow Hhigh.
  assert (Hvalue : cpu_cycle low high = high * 2 ^ 32 + low).
  { unfold cpu_cycle. rewrite N.shiftl_mul_pow2.
    rewrite N.mod_small.
    - rewrite <- N.lxor_lor by (by apply land_shifted_low).
      symmetry. apply N.add_nocarry_lxor. by apply land_shifted_low.
    - change (2 ^ 64) with (2 ^ 32 * 2 ^ 32). apply N.mul_lt_mono_pos_r; [done|done]. }
  rewrite Hvalue. split_and!.
  - done.
  - change (2 ^ 64) with (2 ^ 32 * 2 ^ 32). change (2 ^ 32) with 4294967296 in *. nia.
  - rewrite N.div_add_l by done. rewrite N.div_small by done. lia.
  - rewrite N.add_comm, N.Div0.mod_add. by apply N.mod_small.
Qed.

Lemma cpu_cycle_halves_witness :
  cpu_cycle 7 3 = 3 * 2 ^ 32 + 7
  ∧ cpu_cycle 7 3 < 2 ^ 64
  ∧ cpu_cycle 7 3 / 2 ^ 32 = 3
  ∧ cpu_cycle 7 3 mod 2 ^ 32 = 7.
Proof. apply (cpu_cycle_halves 7 3); reflexivity. Defined.

(** ** [buffer_gt] and [array_gt]: the other operations *)

Section container_properties.
Context {T : Type} (default_construct : T → T).


Import array_gt.

Lemma array_reserve_capacity (a : t T) n outcome :
(reserve default_construct a n outcome).1 = true →
n ≤ capacity_ (reserve default_construct a n outcome).2.
Proof.
unfold reserve. destruct (N.leb_spec n (capacity_ a)) as [Hle|Hlt]; [done|].
by destruct (match elements_ a with Some old => _ | None => _ end).
Qed.

Lemma array_reserve_result (a : t T) n outcome :
wf a → n ≤ capacity_ a ∨ is_Some outcome →
(reserve default_construct a n outcome).1 = true.
Proof.
intros Hwf Hcase. destruct (N.le_gt_cases n (capacity_ a)) as [Hle|Hlt].
{ by rewrite array_reserve_noop. }
destruct Hcase as [?|[fresh ->]]; [lia|]. by rewrite array_reserve_grows.
Qed.

(** The copy of [append_n] behind a [reserve] that succeeded. *)
Lemma array_append_n_copy (a : t T) (elements : list T) (n : N)
  (outcome : option (nat → T)) :
wf a → (N.to_nat n ≤ length elements)%nat → size a + n < size_modulus →
size a + n ≤ capacity a ∨ is_Some outcome →
∃ a', append_n default_construct a elements n outcome = Some (true, a')
    ∧ contents a' = contents a ++ take (N.to_nat n) elements
    ∧ size a' = size a + n.
Proof.
unfold size, capacity. intros Hwf Helems Hfit Hcase.
assert (Hm : size a +s n = count_ a + n) by (by apply size_add_small).
pose proof (array_reserve_result a (count_ a + n) outcome Hwf Hcase) as Hok.
pose proof (array_reserve_capacity a (count_ a + n) outcome Hok) as Hcap.
pose proof (array_reserve_contents default_construct a (count_ a + n) outcome Hwf Hok)
  as (Hcount & Hcont & _).
pose proof (array_reserve_wf default_construct a (count_ a + n) outcome Hwf Hfit)
  as (Hlen1 & Hcount1 & Hcap1).
unfold append_n. rewrite Hm.
destruct (reserve default_construct a (count_ a + n) outcome) as [ok a1].
cbn [fst snd] in *. subst ok.
unfold contents, block, wf in *. rewrite Hcount in *.
destruct (elements_ a1) as [cells|] eqn:Hcells; cbn [default] in *; unfold id in *.
- rewrite decide_True by lia.
  eexists. split; [reflexivity|]. cbn. rewrite <- Hcont.
  rewrite size_add_small by done.
  split; [|done].
  rewrite list_inserts_splice by (rewrite length_take; lia).
  rewrite app_assoc.
  replace (N.to_nat (count_ a + n))
    with (length (take (N.to_nat (count_ a)) cells ++ take (N.to_nat n) elements))
    by (rewrite length_app, !length_take; lia).
  by rewrite take_app_length.
- simpl in Hlen1. assert (n = 0) as -> by lia.
  cbn. eexists. split; [reflexivity|]. cbn.
  rewrite size_add_small by done. rewrite <- Hcont. split; [|done].
  by rewrite !take_nil.
Qed.

(** X9: [append_n] with enough capacity, or with an allocation that
  succeeds, returns true and appends the first [n] cells read at the
  source pointer behind the elements already held, which stay as they
  are. *)
Theorem array_append_n_appends (a : t T) (elements : list T) (n : N)
  (outcome : option (nat → T)) :
wf a → (N.to_nat n ≤ length elements)%nat → size a + n < size_modulus →
size a + n ≤ capacity a ∨ is_Some outcome →
∃ a', append_n default_construct a elements n outcome = Some (true, a')
    ∧ contents a' = contents a ++ take (N.to_nat n) elements
    ∧ size a' = size a + n
    ∧ wf a'.
Proof.
intros Hwf Helems Hfit Hcase.
destruct (array_append_n_copy a elements n outcome Hwf Helems Hfit Hcase)
  as (a' & Happend & Hcontents & Hsize).
exists a'. split; [done|]. split; [done|]. split; [done|].
by eapply array_append_n_wf.
Qed.

(** X10: [append_n] returns false exactly when the elements do not fit the
  capacity and the allocation fails, and then the array is what it was
  before the call. *)
Theorem array_append_n_fails (a : t T) (elements : list T) (n : N)
  (outcome : option (nat → T)) :
wf a → (N.to_nat n ≤ length elements)%nat → size a + n < size_modulus →
∃ ok a', append_n default_construct a elements n outcome = Some (ok, a')
    ∧ (ok = false ↔ capacity a < size a + n ∧ outcome = None)
    ∧ (ok = false → a' = a).
Proof.
intros Hwf Helems Hfit.
destruct (decide (size a + n ≤ capacity a ∨ is_Some outcome)) as [Hcase|Hfail].
- destruct (array_append_n_copy a elements n outcome Hwf Helems Hfit Hcase)
    as (a' & Happend & _).
  exists true, a'. split; [done|]. split; [|done]. split; [done|].
  intros [Hlt ->]. destruct Hcase as [?|[? ?]]; [lia|done].
- assert (Hlt : capacity a < size a + n) by (apply N.lt_nge; tauto).
  assert (outcome = None) as ->.
  { destruct outcome; [|done]. exfalso. apply Hfail. by right. }
  exists false, a. unfold append_n. rewrite size_add_small by done.
  rewrite array_reserve_fails by done. done.
Qed.

(** X11: [push_back_reserved] on an array with spare capacity stores the
  element behind the elements already held, and [pop_back ()] undoes
  it. *)
Theorem array_push_back_pop_back (a : t T) (element : T) :
wf a → size a < capacity a →
∃ a', push_back_reserved a element = Some a'
    ∧ contents a' = contents a ++ [element]
    ∧ size a' = size a + 1
    ∧ capacity a' = capacity a
    ∧ contents (pop_back a' 1) = contents a
    ∧ size (pop_back a' 1) = size a.
Proof.
unfold size, capacity. intros Hwf Hroom.
destruct Hwf as (Hlen & Hcount & Hcap).
unfold push_back_reserved, contents, block, pop_back in *.
destruct (elements_ a) as [cells|]; simpl in Hlen; [|lia].
cbn [mbind option_bind]. rewrite decide_True by lia.
eexists. split; [reflexivity|]. cbn.
rewrite size_incr_small by lia.
assert (Hpop : (count_ a + 1 + (size_modulus - 1 mod size_modulus)) mod size_modulus
               = count_ a).
{ rewrite (N.mod_small 1) by (by vm_compute).
  replace (count_ a + 1 + (size_modulus - 1)) with (count_ a + 1 * size_modulus) by lia.
  rewrite N.Div0.mod_add. apply N.mod_small. lia. }
rewrite Hpop.
replace (N.to_nat (count_ a + 1)) with (S (N.to_nat (count_ a))) by lia.
rewrite (take_S_r _ _ element) by (apply list_lookup_insert_eq; lia).
by rewrite take_insert_ge by lia.
Qed.

(** X12: [pop_back (n)] with [n] at most the size drops the last [n]
  elements and nothing else: the size goes down by [n], the elements that
  stay are the first ones, and the block and the capacity are
  untouched. *)
Theorem array_pop_back_drops (a : t T) (n : N) :
wf a → n ≤ size a →
size (pop_back a n) = size a - n
∧ contents (pop_back a n) = take (N.to_nat (size a - n)) (contents a)
∧ capacity (pop_back a n) = capacity a
∧ data (pop_back a n) = data a.
Proof.
unfold size, capacity, data. intros (Hlen & Hcount & Hcap) Hn.
assert (Hpop : count_ (pop_back a n) = count_ a - n).
{ unfold pop_back. cbn. rewrite (N.mod_small n) by lia.
  replace (count_ a + (size_modulus - n)) with ((count_ a - n) + 1 * size_modulus) by lia.
  rewrite N.Div0.mod_add. apply N.mod_small. lia. }
split_and!; try done.
unfold contents. rewrite Hpop. change (block (pop_back a n)) with (block a).
rewrite take_take. f_equal. lia.
Qed.

End container_properties.

Lemma array_append_n_appends_witness :
  ∃ a', array_gt.append_n id array_with_7 [8; 9; 10] 2 (Some zero_cells) = Some (true, a')
      ∧ array_gt.contents a' = array_gt.contents array_with_7 ++ take (N.to_nat 2) [8; 9; 10]
      ∧ array_gt.size a' = array_gt.size array_with_7 + 2
      ∧ array_gt.wf a'.
Proof.
  apply (array_append_n_appends id array_with_7 [8; 9; 10] 2 (Some zero_cells)).
  - by vm_compute.
  - simpl. lia.
  - reflexivity.
  - right. by eexists.
Defined.

Lemma array_append_n_fails_witness :
  ∃ ok a', array_gt.append_n id array_with_7 [8; 9; 10] 2 None = Some (ok, a')
      ∧ (ok = false ↔ array_gt.capacity array_with_7 < array_gt.size array_with_7 + 2
                      ∧ (None : option (nat → N)) = None)
      ∧ (ok = false → a' = array_with_7).
Proof.
  apply (array_append_n_fails id array_with_7 [8; 9; 10] 2 None).
  - by vm_compute.
  - simpl. lia.
  - reflexivity.
Defined.

Lemma array_push_back_pop_back_witness :
  ∃ a', array_gt.push_back_reserved array_with_7 9 = Some a'
      ∧ array_gt.contents a' = array_gt.contents array_with_7 ++ [9]
      ∧ array_gt.size a' = array_gt.size array_with_7 + 1
      ∧ array_gt.capacity a' = array_gt.capacity array_with_7
      ∧ array_gt.contents (array_gt.pop_back a' 1) = array_gt.contents array_with_7
      ∧ array_gt.size (array_gt.pop_back a' 1) = array_gt.size array_with_7.
Proof.
  apply (array_push_back_pop_back array_with_7 9).
  - by vm_compute.
  - reflexivity.
Defined.

Lemma array_pop_back_drops_witness :
  array_gt.size (array_gt.pop_back array_with_7 1) = array_gt.size array_with_7 - 1
  ∧ array_gt.contents (array_gt.pop_back array_with_7 1)
    = take (N.to_nat (array_gt.size array_with_7 - 1)) (array_gt.contents array_with_7)
  ∧ array_gt.capacity (array_gt.pop_back array_with_7 1) = array_gt.capacity array_with_7
  ∧ array_gt.data (array_gt.pop_back array_with_7 1) = array_gt.data array_with_7.
Proof.
  apply (array_pop_back_drops array_with_7 1).
  - by vm_compute.
  - by vm_compute.
Defined.


(** ** [pool_gt]: what is free and what is handed out *)

Section pool_conservation.
Context {T : Type} (default_construct : T → T).
Import pool_gt.

Lemma iota_NoDup n : NoDup (iota n).
Proof.
unfold iota. apply NoDup_fmap_2_strong; [|apply NoDup_seq].
intros x y _ _. apply Nat2N.inj.
Qed.

Lemma iota_bound n offset : offset ∈ iota n → offset < n.
Proof.
unfold iota. intros (i & -> & Hi)%list_elem_of_fmap.
apply elem_of_seq in Hi. lia.
Qed.

Lemma remove_first_Permutation x l : x ∈ l → l ≡ₚ x :: remove_first x l.
Proof.
induction l as [|y l IH]; intros Hin; [by apply elem_of_nil in Hin|].
simpl. case_decide as Heq; [by subst|].
apply elem_of_cons in Hin as [|Hin]; [done|].
rewrite (IH Hin) at 1. apply Permutation_swap.
Qed.

Lemma free_stack_length (p : t T) : wf p → length (free_stack p) = N.to_nat (free_count_ p).
Proof. intros (Hlen & Hcount & _). unfold free_stack. rewrite length_take. lia. Qed.

Lemma pool_alloc_conserved n (p : t T) outstanding :
conserved n p outstanding →
(free_count_ p = 0 ∧ alloc p = Some (nullptr, p))
∨ (∃ offset p',
      alloc p = Some (element_ptr offset, p')
      ∧ offset ∈ free_stack p
      ∧ conserved n p' (offset :: outstanding)).
Proof.
intros (Hwf & Hn & Hperm). pose proof Hwf as (Hlen & Hcount & Hcap). unfold alloc.
destruct (N.eqb_spec (free_count_ p) 0) as [Hzero|Hpos]; [by left|right].
rewrite size_decr_pos by lia.
destruct (lookup_lt_is_Some_2 (free_offsets_ p) (N.to_nat (free_count_ p - 1)))
  as [offset Hoffset]; [lia|].
rewrite Hoffset. eexists _, _. split; [reflexivity|].
assert (Hstack : free_stack p
                 = take (N.to_nat (free_count_ p - 1)) (free_offsets_ p) ++ [offset]).
{ unfold free_stack.
  replace (N.to_nat (free_count_ p)) with (S (N.to_nat (free_count_ p - 1))) by lia.
  by apply take_S_r. }
split.
- rewrite Hstack. apply elem_of_app. right. by apply list_elem_of_singleton.
- split; [unfold wf; simpl; lia|]. split; [done|].
  rewrite <- Hperm, Hstack. unfold free_stack. simpl.
  by rewrite <- app_assoc.
Qed.

Lemma pool_release_conserved n (p : t T) outstanding released :
conserved n p outstanding → released ∈ outstanding →
∃ p', release p released = Some p'
    ∧ conserved n p' (remove_first released outstanding).
Proof.
intros (Hwf & Hn & Hperm) Hin. pose proof Hwf as (Hlen & Hcount & Hcap).
assert (Hroom : free_count_ p < capacity_ p).
{ pose proof (free_stack_length p Hwf) as Hstack.
  pose proof (Permutation_length Hperm) as Hsum.
  rewrite length_app, iota_length, Hstack in Hsum.
  destruct outstanding as [|x outstanding]; [by apply elem_of_nil in Hin|].
  simpl in Hsum. lia. }
destruct (pool_release_alloc p released Hwf Hroom) as [Hrel _].
eexists. split; [exact Hrel|]. split; [|split; [done|]].
- unfold wf. simpl. rewrite length_insert. lia.
- rewrite <- Hperm. rewrite (remove_first_Permutation released outstanding Hin) at 2.
  unfold free_stack. simpl.
  replace (N.to_nat (free_count_ p + 1)) with (S (N.to_nat (free_count_ p))) by lia.
  rewrite (take_S_r _ _ released) by (apply list_lookup_insert_eq; lia).
  rewrite take_insert_ge by lia.
  by rewrite <- app_assoc.
Qed.

Lemma pool_run_conserved n ops (p : t T) outstanding q outstanding' :
conserved n p outstanding → run p outstanding ops = Some (q, outstanding') →
conserved n q outstanding'.
Proof.
revert p outstanding. induction ops as [|[|released] ops IH]; intros p outstanding Hcons Hrun.
- simpl in Hrun. by injection Hrun as <- <-.
- simpl in Hrun.
  destruct (pool_alloc_conserved n p outstanding Hcons)
    as [[_ Halloc]|(offset & p' & Halloc & _ & Hcons')];
    rewrite Halloc in Hrun; simpl in Hrun; eauto.
- simpl in Hrun. case_decide as Hin; [|done].
  destruct (pool_release_conserved n p outstanding released Hcons Hin) as (p' & Hrel & Hcons').
  rewrite Hrel in Hrun. simpl in Hrun. eauto.
Qed.


(** X15: [release] does not check what it is given: releasing the same
  element twice puts it on the free stack twice, and the next two calls
  of [alloc] both return that element. *)
Theorem pool_double_release (p : t T) (released : N) :
wf p → free_count_ p + 2 ≤ capacity_ p →
∃ p1 p2 p3 p4,
  release p released = Some p1
  ∧ release p1 released = Some p2
  ∧ alloc p2 = Some (element_ptr released, p3)
  ∧ alloc p3 = Some (element_ptr released, p4).
Proof.
intros Hwf Hroom. pose proof Hwf as (Hlen & Hcount & Hcap).
destruct (pool_release_alloc p released Hwf) as [Hrel1 _]; [lia|].
set (p1 := mk (capacity_ p) (free_count_ p + 1) (elements_ p)
              (<[N.to_nat (free_count_ p) := released]> (free_offsets_ p))) in *.
assert (Hwf1 : wf p1) by (unfold wf, p1; simpl; rewrite length_insert; lia).
destruct (pool_release_alloc p1 released Hwf1) as [Hrel2 Halloc2]; [simpl; lia|].
eexists _, _, _, _. split; [exact Hrel1|]. split; [exact Hrel2|]. split; [exact Halloc2|].
unfold alloc, p1. cbn [free_count_ free_offsets_ capacity_ elements_].
destruct (N.eqb_spec (free_count_ p + 1) 0) as [|_]; [lia|].
rewrite size_decr_pos by lia.
replace (free_count_ p + 1 - 1) with (free_count_ p) by lia.
rewrite list_lookup_insert_ne by lia.
rewrite list_lookup_insert_eq by lia. reflexivity.
Qed.
End pool_conservation.


Lemma pool_double_release_witness :
  ∃ p1 p2 p3 p4,
    pool_gt.release (pool_gt.mk 3 1 (Some [0; 0; 0]) [0; 1; 2]) 2 = Some p1
    ∧ pool_gt.release p1 2 = Some p2
    ∧ pool_gt.alloc p2 = Some (element_ptr 2, p3)
    ∧ pool_gt.alloc p3 = Some (element_ptr 2, p4).
Proof.
  apply (pool_double_release (pool_gt.mk 3 1 (Some [0; 0; 0]) [0; 1; 2]) 2); by vm_compute.
Defined.

(** ** [round_robin_gt]: the ring as a queue *)

Section ring_queue.
Import round_robin_gt.

Lemma add_mod_cases o i m :
o < m → i < m → (o + i) mod m = if decide (o + i < m) then o + i else o + i - m.
Proof.
intros Ho Hi. case_decide as Hlt.
- by apply N.mod_small.
- replace (o + i) with ((o + i - m) + 1 * m) at 1 by lia.
  rewrite N.Div0.mod_add. apply N.mod_small. lia.
Qed.

(** Different offsets from the oldest slot are different slots. *)
Lemma ring_slots_distinct o i j m :
o < m → i < m → j < m → i ≠ j → (o + i) mod m ≠ (o + j) mod m.
Proof.
intros Ho Hi Hj Hne. rewrite !add_mod_cases by done.
repeat case_decide; lia.
Qed.

Lemma live_descriptors_eq r :
live_descriptors r
= (fun i => descriptor <$> slot r ((idx_oldest_ r + N.of_nat i) mod capacity_ r))
    <$> seq 0 (N.to_nat (count_ r)).
Proof. unfold live_descriptors, live_slots. by rewrite <- list_fmap_compose. Qed.

(** [push_ahead] below capacity, written out. *)
Lemma ring_push_ahead_eq r circle new_ :
wf r → circle_ r = Some circle → count_ r < capacity_ r →
push_ahead r new_
= Some (mk (Some (<[N.to_nat (idx_newest_ r) := mk_connection new_ 0 (mk_response 0 0)]>
                    circle))
           (count_ r + 1) (capacity_ r) ((idx_newest_ r + 1) mod capacity_ r)
           (idx_oldest_ r) (idx_to_poll_ r)).
Proof.
intros (circle' & Hcircle & Hlen & Hcap & Hcount & Hold & Hnew & Hpoll & Hrel) Hc Hroom.
assert (circle' = circle) as -> by congruence.
unfold push_ahead. rewrite Hcircle. cbn [mbind option_bind].
rewrite decide_True by lia.
rewrite umod_pos by lia. cbn [mbind option_bind].
rewrite (ring_next_index _ (capacity_ r)) by lia.
by rewrite size_incr_small by lia.
Qed.

(** [drop_tail] on a ring that is not empty, written out. *)
Lemma ring_drop_tail_eq r circle oldest :
wf r → circle_ r = Some circle → circle !! N.to_nat (idx_oldest_ r) = Some oldest →
0 < count_ r →
drop_tail r
= Some (descriptor oldest,
        mk (Some (<[N.to_nat (idx_oldest_ r) :=
                     mk_connection bad_descriptor_k (skipped_cycles oldest) (response oldest)]>
                    circle))
           (count_ r - 1) (capacity_ r) (idx_newest_ r)
           ((idx_oldest_ r + 1) mod capacity_ r)
           (if idx_to_poll_ r =? idx_oldest_ r
            then (idx_oldest_ r + 1) mod capacity_ r else idx_to_poll_ r)).
Proof.
intros (circle' & Hcircle & Hlen & Hcap & Hcount & Hold & Hnew & Hpoll & Hrel) Hc Holdest Hlive.
assert (circle' = circle) as -> by congruence.
unfold drop_tail. rewrite Hcircle. cbn [mbind option_bind].
rewrite Holdest. cbn [mbind option_bind].
rewrite !umod_pos by lia.
rewrite (ring_next_index (idx_oldest_ r) (capacity_ r)) by lia.
rewrite (ring_next_index (idx_to_poll_ r) (capacity_ r)) by lia.
rewrite size_decr_pos by lia.
destruct (N.eqb_spec (idx_to_poll_ r) (idx_oldest_ r)) as [->|_]; by cbn [mbind option_bind].
Qed.

(** The queue after [push_ahead]. *)
Lemma ring_push_ahead_live r new_ :
wf r → count_ r < capacity_ r →
∃ r', push_ahead r new_ = Some r'
    ∧ live_descriptors r' = live_descriptors r ++ [Some new_]
    ∧ count_ r' = count_ r + 1.
Proof.
intros Hwf Hroom.
pose proof Hwf as (circle & Hcircle & Hlen & Hcap & Hcount & Hold & Hnew & Hpoll & Hrel).
eexists. split; [by apply ring_push_ahead_eq|].
set (r' := mk _ _ _ _ _ _).
assert (Hother : ∀ i, i ≠ idx_newest_ r → slot r' i = slot r i).
{ intros i Hi. unfold slot, r'. rewrite Hcircle. cbn.
  apply list_lookup_insert_ne. lia. }
assert (Hwritten : slot r' (idx_newest_ r) = Some (mk_connection new_ 0 (mk_response 0 0))).
{ unfold slot, r'. cbn. apply list_lookup_insert_eq. lia. }
split; [|done].
rewrite !live_descriptors_eq. unfold r' at 2 3 4. cbn [count_ capacity_ idx_oldest_].
replace (N.to_nat (count_ r + 1)) with (S (N.to_nat (count_ r))) by lia.
rewrite seq_S, fmap_app. cbn [fmap list_fmap]. f_equal.
- apply list_fmap_ext. intros k i Hi. apply lookup_seq in Hi as [-> Hi]. cbn beta.
  rewrite Nat.add_0_l. rewrite Hother; [done|]. rewrite Hrel.
  apply ring_slots_distinct; lia.
- cbn beta. rewrite Nat.add_0_l, N2Nat.id, <- Hrel. by rewrite Hwritten.
Qed.

(** X16: [push_ahead] on a ring that is not full enqueues: the descriptors
  of the live slots are those of before followed by the new one, the size
  grows by one, the slot written is the one at [idx_newest_], it holds the
  new descriptor with all three counters at zero, and no other slot
  changes. *)
Theorem ring_push_ahead_enqueues r new_ :
wf r → size r < capacity r →
∃ r', push_ahead r new_ = Some r'
    ∧ live_descriptors r' = live_descriptors r ++ [Some new_]
    ∧ size r' = size r + 1
    ∧ slot r' (idx_newest_ r) = Some (mk_connection new_ 0 (mk_response 0 0))
    ∧ (∀ i, i ≠ idx_newest_ r → slot r' i = slot r i).
Proof.
unfold size, capacity. intros Hwf Hroom.
destruct (ring_push_ahead_live r new_ Hwf Hroom) as (r' & Hpush & Hlive & Hsize).
exists r'. split; [done|]. split; [done|]. split; [done|].
pose proof Hwf as (circle & Hcircle & Hlen & Hcap & Hcount & Hold & Hnew & Hpoll & Hrel).
rewrite (ring_push_ahead_eq r circle new_ Hwf Hcircle Hroom) in Hpush.
injection Hpush as <-. unfold slot. rewrite Hcircle. cbn. split.
- apply list_lookup_insert_eq. lia.
- intros i Hi. apply list_lookup_insert_ne. lia.
Qed.

(** The queue after [drop_tail]. *)
Lemma ring_drop_tail_live r :
wf r → 0 < count_ r →
∃ old r', drop_tail r = Some (old, r')
    ∧ live_descriptors r = Some old :: live_descriptors r'
    ∧ count_ r' = count_ r - 1.
Proof.
intros Hwf Hlive.
pose proof Hwf as (circle & Hcircle & Hlen & Hcap & Hcount & Hold & Hnew & Hpoll & Hrel).
destruct (lookup_lt_is_Some_2 circle (N.to_nat (idx_oldest_ r))) as [oldest Holdest]; [lia|].
eexists _, _. split; [by eapply ring_drop_tail_eq|].
set (r' := mk _ _ _ _ _ _).
assert (Hother : ∀ i, i ≠ idx_oldest_ r → slot r' i = slot r i).
{ intros i Hi. unfold slot, r'. rewrite Hcircle. cbn.
  apply list_lookup_insert_ne. lia. }
assert (Hslot : slot r (idx_oldest_ r) = Some oldest).
{ unfold slot. rewrite Hcircle. done. }
split; [|done].
rewrite !live_descriptors_eq. unfold r' at 2 3 4. cbn [count_ capacity_ idx_oldest_].
replace (N.to_nat (count_ r)) with (S (N.to_nat (count_ r - 1))) by lia.
cbn [seq fmap list_fmap]. f_equal.
- rewrite N.add_0_r, N.mod_small by done. by rewrite Hslot.
- rewrite <- fmap_S_seq, <- list_fmap_compose.
  apply list_fmap_ext. intros k i Hi. apply lookup_seq in Hi as [-> Hi].
  cbn beta. rewrite Nat.add_0_l. cbn [compose].
  rewrite N.Div0.add_mod_idemp_l.
  replace (idx_oldest_ r + 1 + N.of_nat k) with (idx_oldest_ r + N.of_nat (S k)) by lia.
  rewrite Hother; [done|].
  rewrite <- (N.mod_small (idx_oldest_ r) (capacity_ r)) at 2 by done.
  rewrite <- (N.add_0_r (idx_oldest_ r)) at 2.
  apply ring_slots_distinct; lia.
Qed.

(** X17: [drop_tail] on a ring that is not empty dequeues: it returns the
  descriptor of the oldest live slot, the descriptors of the live slots
  afterwards are the remaining ones in the same order, the size shrinks by
  one, and the only store is the sentinel written over the descriptor of
  the evicted slot, whose counters stay as they were. *)
Theorem ring_drop_tail_dequeues r :
wf r → 0 < size r →
∃ old r', drop_tail r = Some (old, r')
    ∧ live_descriptors r = Some old :: live_descriptors r'
    ∧ size r' = size r - 1
    ∧ slot r' (idx_oldest_ r)
      = (fun c => mk_connection bad_descriptor_k (skipped_cycles c) (response c))
          <$> slot r (idx_oldest_ r)
    ∧ (∀ i, i ≠ idx_oldest_ r → slot r' i = slot r i).
Proof.
unfold size. intros Hwf Hlive.
destruct (ring_drop_tail_live r Hwf Hlive) as (old & r' & Hdrop & Hqueue & Hsize).
exists old, r'. split; [done|]. split; [done|]. split; [done|].
pose proof Hwf as (circle & Hcircle & Hlen & Hcap & Hcount & Hold & Hnew & Hpoll & Hrel).
destruct (lookup_lt_is_Some_2 circle (N.to_nat (idx_oldest_ r))) as [oldest Holdest]; [lia|].
rewrite (ring_drop_tail_eq r circle oldest Hwf Hcircle Holdest Hlive) in Hdrop.
injection Hdrop as _ <-. unfold slot. rewrite Hcircle. cbn. split.
- rewrite Holdest. cbn. apply list_lookup_insert_eq. lia.
- intros i Hi. apply list_lookup_insert_ne. lia.
Qed.

Lemma ring_poll_keeps_queue r r' i :
wf r → 0 < count_ r → poll r = Some (i, r') →
live_descriptors r' = live_descriptors r ∧ count_ r' = count_ r.
Proof.
intros Hwf Hlive Hpoll.
destruct (ring_poll_wf r Hwf Hlive) as (r1 & Hpoll1 & _ & _ & Hc & Hn & Hcap & Ho & _).
assert (r1 = r') as -> by congruence.
split; [|done]. rewrite !live_descriptors_eq, Hn, Hcap, Ho.
apply list_fmap_ext. intros k j _. unfold slot. by rewrite Hc.
Qed.

End ring_queue.

Lemma ring_push_ahead_enqueues_witness :
  ∃ r', round_robin_gt.push_ahead (round_robin_gt.allocated 2 zero_connections) 5%Z = Some r'
      ∧ round_robin_gt.live_descriptors r'
        = round_robin_gt.live_descriptors (round_robin_gt.allocated 2 zero_connections)
            ++ [Some 5%Z]
      ∧ round_robin_gt.size r'
        = round_robin_gt.size (round_robin_gt.allocated 2 zero_connections) + 1
      ∧ round_robin_gt.slot r'
          (round_robin_gt.idx_newest_ (round_robin_gt.allocated 2 zero_connections))
        = Some (mk_connection 5%Z 0 (mk_response 0 0))
      ∧ (∀ i, i ≠ round_robin_gt.idx_newest_ (round_robin_gt.allocated 2 zero_connections) →
              round_robin_gt.slot r' i
              = round_robin_gt.slot (round_robin_gt.allocated 2 zero_connections) i).
Proof.
  apply (ring_push_ahead_enqueues (round_robin_gt.allocated 2 zero_connections) 5%Z).
  - apply ring_allocated_wf. by vm_compute.
  - reflexivity.
Defined.


Lemma full_ring_wf : round_robin_gt.wf full_ring.
Proof. eexists. split; [reflexivity|]. by vm_compute. Qed.

Lemma ring_drop_tail_dequeues_witness :
  ∃ old r',
    round_robin_gt.drop_tail full_ring = Some (old, r')
    ∧ round_robin_gt.live_descriptors full_ring = Some old :: round_robin_gt.live_descriptors r'
    ∧ round_robin_gt.size r' = round_robin_gt.size full_ring - 1
    ∧ round_robin_gt.slot r' (round_robin_gt.idx_oldest_ full_ring)
      = (fun c => mk_connection bad_descriptor_k (skipped_cycles c) (response c))
          <$> round_robin_gt.slot full_ring (round_robin_gt.idx_oldest_ full_ring)
    ∧ (∀ i, i ≠ round_robin_gt.idx_oldest_ full_ring →
            round_robin_gt.slot r' i = round_robin_gt.slot full_ring i).
Proof. apply (ring_drop_tail_dequeues full_ring); [apply full_ring_wf|reflexivity]. Defined.

(** ** [round_robin_gt]: polling, peeking and overflowing *)

Section ring_polling.
Import round_robin_gt.

(** On a full ring the newest index has come round to the oldest one. *)
Lemma ring_full_newest r : wf r → count_ r = capacity_ r → idx_newest_ r = idx_oldest_ r.
Proof.
intros (circle & _ & _ & Hcap & _ & Hold & _ & _ & Hrel) Hfull.
rewrite Hrel, Hfull. replace (idx_oldest_ r + capacity_ r)
  with (idx_oldest_ r + 1 * capacity_ r) by lia.
rewrite N.Div0.mod_add. by apply N.mod_small.
Qed.

(** [poll] on a full ring steps the cursor to the next slot of the block. *)
Lemma ring_poll_full r :
wf r → count_ r = capacity_ r →
poll r = Some ((idx_to_poll_ r + 1) mod capacity_ r,
               mk (circle_ r) (count_ r) (capacity_ r) (idx_newest_ r) (idx_oldest_ r)
                  ((idx_to_poll_ r + 1) mod capacity_ r)).
Proof.
intros Hwf Hfull. pose proof (ring_full_newest r Hwf Hfull) as Hnewest.
assert (Hlive : 0 < count_ r) by (destruct Hwf as (? & _ & _ & ? & _); lia).
destruct (ring_poll_wf r Hwf Hlive) as (r' & Hpoll & _ & Hidx & Hc & Hn & Hcap & Ho & Hnew).
rewrite Hpoll.
assert (Hcursor : idx_to_poll_ r' = (idx_to_poll_ r + 1) mod capacity_ r).
{ rewrite Hidx, Hfull, Hnewest.
  destruct (N.eqb_spec ((idx_to_poll_ r + 1) mod capacity_ r) (idx_oldest_ r)); congruence. }
clear Hidx Hpoll. destruct r'. cbn in *. by subst.
Qed.

Lemma ring_full_polls (k : nat) r :
wf r → count_ r = capacity_ r →
polls k r
= Some ((fun i => (idx_to_poll_ r + 1 + N.of_nat i) mod capacity_ r) <$> seq 0 k,
        mk (circle_ r) (count_ r) (capacity_ r) (idx_newest_ r) (idx_oldest_ r)
           ((idx_to_poll_ r + N.of_nat k) mod capacity_ r)).
Proof.
revert r. induction k as [|k IH]; intros r Hwf Hfull.
- simpl. pose proof Hwf as (circle & _ & _ & _ & _ & _ & _ & Hpoll & _).
  rewrite N.add_0_r, N.mod_small by done. by destruct r.
- cbn [polls]. rewrite ring_poll_full by done. cbn [mbind option_bind].
  set (r1 := mk _ _ _ _ _ _).
  assert (Hwf1 : wf r1).
  { assert (Hlive : 0 < count_ r) by (destruct Hwf as (? & _ & _ & ? & _); lia).
    destruct (ring_poll_wf r Hwf Hlive) as (r' & Hpoll & Hwf' & _).
    rewrite ring_poll_full in Hpoll by done. injection Hpoll as _ Hr.
    by rewrite <- Hr in Hwf'. }
  rewrite (IH r1 Hwf1 Hfull). cbn [mbind option_bind].
  unfold r1. cbn [circle_ count_ capacity_ idx_newest_ idx_oldest_ idx_to_poll_].
  f_equal. f_equal.
  + cbn [seq fmap list_fmap]. f_equal.
    * by rewrite N.add_0_r.
    * rewrite <- fmap_S_seq, <- list_fmap_compose. apply list_fmap_ext.
      intros j i _. cbn [compose].
      rewrite <- N.add_assoc, N.Div0.add_mod_idemp_l. f_equal. lia.
  + f_equal. rewrite N.Div0.add_mod_idemp_l. f_equal. lia.
Qed.

(** X19: on a full ring the polls are fair: as many polls as there are
  slots return every slot exactly once, in the order of the block starting
  behind the cursor, and leave the cursor where it was. *)
Theorem ring_full_poll_cycle r :
wf r → size r = capacity r →
∃ slots r',
  polls (N.to_nat (capacity r)) r = Some (slots, r')
  ∧ slots = (fun i => (idx_to_poll_ r + 1 + N.of_nat i) mod capacity r)
              <$> seq 0 (N.to_nat (capacity r))
  ∧ NoDup slots
  ∧ (∀ s, s ∈ slots ↔ s < capacity r)
  ∧ idx_to_poll_ r' = idx_to_poll_ r.
Proof.
unfold size, capacity. intros Hwf Hfull.
pose proof Hwf as (circle & _ & _ & Hcap & _ & _ & _ & Hpoll & _).
eexists _, _. split; [by apply ring_full_polls|]. split; [done|].
set (start := (idx_to_poll_ r + 1) mod capacity_ r).
assert (Hstart : start < capacity_ r) by (apply N.mod_lt; lia).
assert (Hslot : ∀ i, (idx_to_poll_ r + 1 + N.of_nat i) mod capacity_ r
                     = (start + N.of_nat i) mod capacity_ r).
{ intros i. unfold start. by rewrite N.Div0.add_mod_idemp_l. }
split_and!.
- apply NoDup_fmap_2_strong; [|apply NoDup_seq].
  intros x y Hx Hy Heq. apply elem_of_seq in Hx, Hy. rewrite !Hslot in Heq.
  destruct (decide (x = y)) as [|Hne]; [done|]. exfalso.
  by apply (ring_slots_distinct start (N.of_nat x) (N.of_nat y) (capacity_ r)); try lia.
- intros s. rewrite list_elem_of_fmap. split.
  + intros (i & -> & _). apply N.mod_lt. lia.
  + intros Hs.
    exists (N.to_nat (if decide (start ≤ s) then s - start else s + capacity_ r - start)).
    split; [|apply elem_of_seq; case_decide; lia].
    rewrite Hslot, N2Nat.id, add_mod_cases by (try done; case_decide; lia).
    repeat case_decide; lia.
- cbn. replace (idx_to_poll_ r + N.of_nat (N.to_nat (capacity_ r)))
    with (idx_to_poll_ r + 1 * capacity_ r) by lia.
  rewrite N.Div0.mod_add. by apply N.mod_small.
Qed.


(** X21: [tail] on a ring that is not empty is the oldest live
  connection: its descriptor is the first of the queue. *)
Theorem ring_tail_is_oldest r :
wf r → 0 < size r →
∃ connection,
  tail r = Some connection
  ∧ List.head (live_descriptors r) = Some (Some (descriptor connection)).
Proof.
unfold size. intros (circle & Hcircle & Hlen & Hcap & Hcount & Hold & _) Hlive.
destruct (lookup_lt_is_Some_2 circle (N.to_nat (idx_oldest_ r))) as [oldest Holdest]; [lia|].
assert (Hslot : slot r (idx_oldest_ r) = Some oldest) by (unfold slot; by rewrite Hcircle).
exists oldest. split; [done|].
rewrite live_descriptors_eq.
replace (N.to_nat (count_ r)) with (S (N.to_nat (count_ r - 1))) by lia.
cbn [seq fmap list_fmap List.head].
rewrite N.add_0_r, N.mod_small by done. by rewrite Hslot.
Qed.

Lemma succ_mod_cases x m :
0 < m → (x + 1) mod m = if decide (x mod m + 1 < m) then x mod m + 1 else 0.
Proof.
intros Hm.
pose proof (N.div_mod x m ltac:(lia)) as Hdm.
pose proof (N.mod_lt x m ltac:(lia)) as Hlt.
case_decide as Hsmall; symmetry.
- apply (N.mod_unique _ _ (x / m)); [done|lia].
- apply (N.mod_unique _ _ (x / m + 1)); lia.
Qed.

(** The slot of the newest live connection, from [idx_newest_]. *)
Lemma last_live_slot r :
wf r → 0 < count_ r →
(idx_oldest_ r + (count_ r - 1)) mod capacity_ r
= if decide (idx_newest_ r = 0) then capacity_ r - 1 else idx_newest_ r - 1.
Proof.
intros (circle & _ & _ & Hcap & Hcount & Hold & Hnew & _ & Hrel) Hlive.
set (x := idx_oldest_ r + (count_ r - 1)).
assert (Hx : idx_newest_ r = (x + 1) mod capacity_ r).
{ rewrite Hrel. unfold x. f_equal. lia. }
rewrite succ_mod_cases in Hx by lia.
pose proof (N.mod_lt x (capacity_ r) ltac:(lia)) as Hlt.
set (y := x mod capacity_ r) in *. clearbody y. clear Hrel.
repeat case_decide; lia.
Qed.

(** X22: [head] reads the slot in front of [idx_newest_].  While
  [idx_newest_] is not 0 that is the newest live connection, the last of
  the queue; when [idx_newest_] has wrapped to 0 the index
  [idx_newest_ - 1] is the largest [std::size_t], and the read falls
  outside the block although the ring is not empty. *)
Theorem ring_head_behaviour r :
wf r → 0 < size r →
(idx_newest_ r ≠ 0 →
   ∃ connection,
     head r = Some connection
     ∧ last (live_descriptors r) = Some (Some (descriptor connection)))
∧ (idx_newest_ r = 0 →
   head r = None ∧ last (live_slots r) = Some (capacity r - 1)).
Proof.
unfold size, capacity. intros Hwf Hlive.
pose proof Hwf as (circle & Hcircle & Hlen & Hcap & Hcount & Hold & Hnew & _ & Hrel).
assert (Hlast : last (seq 0 (N.to_nat (count_ r))) = Some (N.to_nat (count_ r - 1))).
{ replace (N.to_nat (count_ r)) with (S (N.to_nat (count_ r - 1))) by lia.
  by rewrite seq_S, last_snoc. }
split.
- intros Hnz.
  destruct (lookup_lt_is_Some_2 circle (N.to_nat (idx_newest_ r - 1))) as [newest Hnewest];
    [lia|].
  exists newest. split.
  + unfold head, slot. rewrite size_decr_pos by lia. by rewrite Hcircle.
  + rewrite live_descriptors_eq, fmap_last, Hlast. cbn [fmap option_fmap option_map].
    rewrite N2Nat.id, last_live_slot, decide_False by done.
    unfold slot. rewrite Hcircle. cbn. by rewrite Hnewest.
- intros Hzero. split.
  + unfold head, slot. rewrite Hzero, Hcircle. cbn.
    apply lookup_ge_None. rewrite Hlen. unfold size_modulus in *.
    change (size_decr 0) with 18446744073709551615.
    change (2 ^ 64) with 18446744073709551616 in Hcap.
    apply Nat.compare_le_iff. rewrite <- N2Nat.inj_compare. apply N.compare_le_iff. lia.
  + unfold live_slots. rewrite fmap_last, Hlast. cbn [fmap option_fmap option_map].
    f_equal. by rewrite N2Nat.id, last_live_slot, decide_True by done.
Qed.

(** X23: [push_ahead] does not test for room: on a full ring it stores the
  new connection over the oldest live one, which [idx_oldest_] still
  designates, and the size becomes larger than the capacity. *)
Theorem ring_push_ahead_overwrites r new_ :
wf r → size r = capacity r → size r + 1 < size_modulus →
∃ r', push_ahead r new_ = Some r'
    ∧ size r' = capacity r' + 1
    ∧ idx_oldest_ r' = idx_oldest_ r
    ∧ tail r' = Some (mk_connection new_ 0 (mk_response 0 0)).
Proof.
unfold size, capacity. intros Hwf Hfull Hfit.
pose proof (ring_full_newest r Hwf Hfull) as Hnewest.
destruct Hwf as (circle & Hcircle & Hlen & Hcap & Hcount & Hold & Hnew & Hpoll & Hrel).
unfold push_ahead. rewrite Hcircle. cbn [mbind option_bind].
rewrite decide_True by lia.
rewrite umod_pos by lia. cbn [mbind option_bind].
eexists. split; [reflexivity|]. cbn.
rewrite size_incr_small by done. split_and!; try done; try lia.
unfold tail, slot. cbn. rewrite Hnewest. apply list_lookup_insert_eq. lia.
Qed.
End ring_polling.

Lemma ring_full_poll_cycle_witness :
  ∃ slots r',
    round_robin_gt.polls (N.to_nat (round_robin_gt.capacity full_ring)) full_ring
    = Some (slots, r')
    ∧ slots = (fun i => (round_robin_gt.idx_to_poll_ full_ring + 1 + N.of_nat i)
                          mod round_robin_gt.capacity full_ring)
                <$> seq 0 (N.to_nat (round_robin_gt.capacity full_ring))
    ∧ NoDup slots
    ∧ (∀ s, s ∈ slots ↔ s < round_robin_gt.capacity full_ring)
    ∧ round_robin_gt.idx_to_poll_ r' = round_robin_gt.idx_to_poll_ full_ring.
Proof. apply (ring_full_poll_cycle full_ring); [apply full_ring_wf|reflexivity]. Defined.


Lemma ring_tail_is_oldest_witness :
  ∃ connection,
    round_robin_gt.tail full_ring = Some connection
    ∧ List.head (round_robin_gt.live_descriptors full_ring)
      = Some (Some (descriptor connection)).
Proof. apply (ring_tail_is_oldest full_ring); [apply full_ring_wf|reflexivity]. Defined.

Lemma ring_head_behaviour_witness :
  (round_robin_gt.idx_newest_ full_ring ≠ 0 →
     ∃ connection,
       round_robin_gt.head full_ring = Some connection
       ∧ last (round_robin_gt.live_descriptors full_ring)
         = Some (Some (descriptor connection)))
  ∧ (round_robin_gt.idx_newest_ full_ring = 0 →
     round_robin_gt.head full_ring = None
     ∧ last (round_robin_gt.live_slots full_ring)
       = Some (round_robin_gt.capacity full_ring - 1)).
Proof. apply (ring_head_behaviour full_ring); [apply full_ring_wf|reflexivity]. Defined.

Lemma ring_push_ahead_overwrites_witness :
  ∃ r', round_robin_gt.push_ahead full_ring 9%Z = Some r'
      ∧ round_robin_gt.size r' = round_robin_gt.capacity r' + 1
      ∧ round_robin_gt.idx_oldest_ r' = round_robin_gt.idx_oldest_ full_ring
      ∧ round_robin_gt.tail r' = Some (mk_connection 9%Z 0 (mk_response 0 0)).
Proof.
  apply (ring_push_ahead_overwrites full_ring 9%Z); [apply full_ring_wf|reflexivity|reflexivity].
Defined.
